(** * Trie.h: a prefix trie over lowercase ASCII strings

    A shallow embedding of [TrieNode] and [Trie] from [Trie.h].  Nodes are a
    nested inductive type (a node owns a [std::vector] of nodes); the methods
    of [Trie] run in a small state-and-error monad over the trie object, so
    that an assertion failure, an out-of-bounds vector access and the state
    left behind by a call are all visible in the result. *)

From Stdlib Require Import ZArith Ascii String List Permutation Lia.
From stdpp Require Import base option list strings.

Set Warnings "-register-all".

Local Open Scope nat_scope.

(** [constexpr int ALPHA_SIZE = 26;] *)
Definition ALPHA_SIZE : nat := 26.

(** ** struct TrieNode *)
Module TrieNode.

(** [char data = '\0'; bool isWord = false; std::vector<TrieNode> children;] *)
Inductive t : Type :=
  mk { data : ascii; isWord : bool; children : list t }.

(** [TrieNode() = default]: the member initialisers, and an empty vector. *)
Definition default : t := mk zero false [].

(** [std::vector::resize(n)]: cut down to [n] elements, or filled up to [n]
    elements with value-initialised nodes. *)
Definition resize (n : nat) (v : list t) : list t :=
  take n v ++ replicate (n - length v) default.

(** [void createChildren() { children.resize(ALPHA_SIZE); }] *)
Definition createChildren (n : t) : t :=
  mk (data n) (isWord n) (resize ALPHA_SIZE (children n)).

(** [TrieNode(char c) : data(c) { createChildren(); }] *)
Definition make (c : ascii) : t := createChildren (mk c false []).

(** [hasChildren]: [std::any_of] over the children of [node.data != '\0']. *)
Definition hasChildren (n : t) : bool :=
  existsb (fun node => negb (Ascii.eqb (data node) zero)) (children n).

(** Field assignments [n.data = c] and [n.isWord = b]. *)
Definition set_data (c : ascii) (n : t) : t := mk c (isWord n) (children n).
Definition set_isWord (b : bool) (n : t) : t := mk (data n) b (children n).
Definition set_children (v : list t) (n : t) : t := mk (data n) (isWord n) v.

End TrieNode.

(** ** class Trie *)
Module Trie.

(** [std::unique_ptr<TrieNode> m_root;] the trie owns its root. *)
Record t : Type := { m_root : TrieNode.t }.

(** *** Results of a method call

    [assert] is compiled in (no [NDEBUG]): a failed assertion aborts the
    call.  Indexing a vector outside its bounds is undefined behaviour and
    is kept apart from every defined result. *)
Inductive outcome (A : Type) : Type :=
| Ok (a : A)
| AssertFail
| Undefined.
Arguments Ok {A} a.
Arguments AssertFail {A}.
Arguments Undefined {A}.

(** A method is a function of the object it is called on, returning its
    result and the object as the call leaves it. *)
Definition M (A : Type) : Type := t -> outcome A * t.

(** Return [a]; the object is not touched. *)
Definition ret {A} (a : A) : M A := fun this => (Ok a, this).

(** Sequencing: an abort or an undefined step ends the call, with the object
    as it was at that point. *)
Definition bind {A B} (m : M A) (k : A -> M B) : M B :=
  fun this =>
    match m this with
    | (Ok a, this') => k a this'
    | (AssertFail, this') => (AssertFail, this')
    | (Undefined, this') => (Undefined, this')
    end.

Notation "x <-- m ; k" := (bind m (fun x => k))
  (at level 20, m at level 100, k at level 200, only parsing).
Notation "m ;;; k" := (bind m (fun _ => k))
  (at level 100, k at level 200, only parsing, right associativity).

(** [assert(b)] *)
Definition assert_ (b : bool) : M unit :=
  fun this => if b then (Ok tt, this) else (AssertFail, this).

(** [m_root.get()] read, and the write-back of a root updated through the
    pointer. *)
Definition get_root : M TrieNode.t := fun this => (Ok (m_root this), this).
Definition put_root (r : TrieNode.t) : M unit :=
  fun _ => (Ok tt, {| m_root := r |}).

(** [*this] *)
Definition self : M t := fun this => (Ok this, this).

(** A computation on nodes that indexed out of bounds is undefined. *)
Definition defined {A} (o : option A) : M A :=
  fun this => match o with Some a => (Ok a, this) | None => (Undefined, this) end.

(** [Trie() { m_root = std::make_unique<TrieNode>('\0'); }] *)
Definition Trie : t := {| m_root := TrieNode.make zero |}.

(** [islower] of <cctype> in the "C" locale: the letters [a..z]. *)
Definition islower (c : ascii) : bool :=
  (97 <=? nat_of_ascii c) && (nat_of_ascii c <=? 122).

(** [static bool isLower(const std::string &s)]: [std::all_of(.., islower)]. *)
Fixpoint isLower (s : string) : bool :=
  match s with
  | EmptyString => true
  | String c rest => islower c && isLower rest
  end.

(** The value of a [char] promoted to [int]: [char] is signed here, so the
    bytes above 127 are negative.  (Where [char] is unsigned they stay
    above 127; the index they give is out of bounds either way.) *)
Definition char_value (c : ascii) : Z :=
  let n := Z.of_nat (nat_of_ascii c) in
  if (n <? 128)%Z then n else (n - 256)%Z.

(** [s[i] - 'a'], computed in [int]. *)
Definition slot (c : ascii) : Z := (char_value c - 97)%Z.

(** [v[i]] on a vector: the index is converted to [size_t], so a negative
    one is out of bounds like one past the end. *)
Definition at_ (v : list TrieNode.t) (i : Z) : option TrieNode.t :=
  if (i <? 0)%Z then None else v !! Z.to_nat i.

(** The body of the loop of [insert] on [trieNode], the child it indexed:
<<
    if (trieNode.children.empty()) trieNode.createChildren();
    trieNode.data = s[i];
    if (atEnd) trieNode.isWord = true;
>> *)
Definition visit (c : ascii) (atEnd : bool) (trieNode : TrieNode.t) : TrieNode.t :=
  let trieNode :=
    match TrieNode.children trieNode with
    | [] => TrieNode.createChildren trieNode
    | _ :: _ => trieNode
    end in
  let trieNode := TrieNode.set_data c trieNode in
  if atEnd then TrieNode.set_isWord true trieNode else trieNode.

(** [i == s.size() - 1]: no character is left after this one. *)
Definition atEnd (rest : string) : bool :=
  match rest with EmptyString => true | String _ _ => false end.

(** The loop of [insert] from [current] on the characters still to read.
    [trieNode] is a reference into [current->children]: what the rest of
    the loop does below it is written back into that slot. *)
Fixpoint insert_loop (current : TrieNode.t) (s : string) : option TrieNode.t :=
  match s with
  | EmptyString => Some current
  | String c rest =>
      match at_ (TrieNode.children current) (slot c) with
      | None => None
      | Some trieNode =>
          match insert_loop (visit c (atEnd rest) trieNode) rest with
          | None => None
          | Some trieNode' =>
              Some (TrieNode.set_children
                      (<[Z.to_nat (slot c) := trieNode']> (TrieNode.children current))
                      current)
          end
      end
  end.

(** [auto& insert(const std::string &s)] *)
Definition insert (s : string) : M t :=
  assert_ (isLower s) ;;;
  root <-- get_root;
  root' <-- defined (insert_loop root s);
  put_root root' ;;;
  self.

(** The loop of [isWord]: [isWord] is the local flag, [current] the node
    pointed to. *)
Fixpoint isWord_loop (current : TrieNode.t) (isWord : bool) (s : string) : option bool :=
  match s with
  | EmptyString => Some isWord
  | String c rest =>
      match TrieNode.children current with
      | [] => Some isWord
      | _ :: _ =>
          match at_ (TrieNode.children current) (slot c) with
          | None => None
          | Some next => isWord_loop next (TrieNode.isWord next) rest
          end
      end
  end.

(** [bool isWord(const std::string &s)] *)
Definition isWord (s : string) : M bool :=
  assert_ (isLower s) ;;;
  root <-- get_root;
  defined (isWord_loop root false s).

(** [getWordsImpl(node, substr, words)]: [substr] and [words] are passed by
    reference, so the pair of them is threaded through the loop over the
    children and through the recursive calls. *)
Fixpoint getWordsImpl (node : TrieNode.t) (st : string * list string)
  : string * list string :=
  let fix each (cs : list TrieNode.t) (st : string * list string) :=
    match cs with
    | [] => st
    | child :: cs' =>
        if Ascii.eqb (TrieNode.data child) zero then each cs' st
        else
          let substr := (fst st +:+ String (TrieNode.data child) EmptyString) in
          let words := if TrieNode.isWord child then snd st ++ [substr] else snd st in
          let substr := if negb (TrieNode.hasChildren child) then EmptyString else substr in
          each cs' (getWordsImpl child (substr, words))
    end in
  match node with
  | TrieNode.mk _ _ cs => each cs st
  end.

(** [std::vector<std::string> getWords()] *)
Definition getWords : M (list string) :=
  root <-- get_root;
  ret (snd (getWordsImpl root (EmptyString, []))).

(** [t.insert(a).insert(b)...]: the calls of a chain, in order. *)
Fixpoint inserts (ws : list string) : M unit :=
  match ws with
  | [] => ret tt
  | w :: ws' => insert w ;;; inserts ws'
  end.

End Trie.

Import Trie(outcome, Ok, AssertFail, Undefined).

Local Open Scope string_scope.

(** ** Vocabulary of the properties *)

(** The words [testTrie] inserts. *)
Definition test_words : list string := ["many"; "man"; "quick"; "quickly"].

(** A valid word is non-empty and all lowercase. *)
Definition valid (s : string) : bool :=
  Trie.isLower s && negb (Trie.atEnd s).

(** A lowercase ASCII letter: a character from ['a'] to ['z']. *)
Definition lowercase_letter (c : ascii) : Prop :=
  nat_of_ascii "a" <= nat_of_ascii c <= nat_of_ascii "z".

(** The slots [p] names, one below the other from [n], are all occupied. *)
Fixpoint occupied_path (n : TrieNode.t) (p : list nat) : bool :=
  match p with
  | [] => true
  | i :: p' =>
      match TrieNode.children n !! i with
      | Some c =>
          negb (Ascii.eqb (TrieNode.data c) zero) && occupied_path c p'
      | None => false
      end
  end.

(** The slot of a letter as a position in the vector. *)
Definition idx (c : ascii) : nat := nat_of_ascii c - 97.

(** The allocation invariant of the node graph.  A node that is the root or
    was visited by [insert] has its [ALPHA_SIZE] slots; each slot holds
    either a value-initialised node (an empty slot) or a node with a letter
    in [data] that is allocated in turn. *)
Inductive allocated : TrieNode.t -> Prop :=
| allocated_node n :
    length (TrieNode.children n) = ALPHA_SIZE ->
    Forall (fun c => c = TrieNode.default \/ (TrieNode.data c <> zero /\ allocated c))
           (TrieNode.children n) ->
    allocated n.

(** What the invariant asks of one slot. *)
Definition slot_ok (c : TrieNode.t) : Prop :=
  c = TrieNode.default \/ (TrieNode.data c <> zero /\ allocated c).

(** A list of strings in strictly increasing lexicographic order. *)
Fixpoint strictly_increasing (l : list string) : bool :=
  match l with
  | [] => true
  | a :: r =>
      match r with
      | [] => true
      | b :: _ => String.ltb a b && strictly_increasing r
      end
  end.

(** [p] is a prefix of [s] and shorter than it. *)
Definition strict_prefix (p s : string) : bool :=
  String.prefix p s && negb (String.eqb p s).

(** The public operations, as a caller sequences them. *)
Inductive op : Type :=
| Insert (s : string)
| IsWord (s : string)
| GetWords.

(** The operation is called on a valid word. *)
Definition valid_op (o : op) : bool :=
  match o with
  | Insert s => valid s
  | IsWord s => valid s
  | GetWords => true
  end.

(** One call, its result dropped. *)
Definition run_op (o : op) : Trie.M unit :=
  match o with
  | Insert s => Trie.bind (Trie.insert s) (fun _ => Trie.ret tt)
  | IsWord s => Trie.bind (Trie.isWord s) (fun _ => Trie.ret tt)
  | GetWords => Trie.bind Trie.getWords (fun _ => Trie.ret tt)
  end.

(** The calls of a sequence, in order, as long as they return. *)
Fixpoint run_ops (os : list op) : Trie.M unit :=
  match os with
  | [] => Trie.ret tt
  | o :: os' => Trie.bind (run_op o) (fun _ => run_ops os')
  end.

(** The nodes reached from [r] through occupied slots only, [r] included. *)
Inductive occupied_below (r : TrieNode.t) : TrieNode.t -> Prop :=
| occupied_here : occupied_below r r
| occupied_child n c :
    occupied_below r n -> In c (TrieNode.children n) ->
    TrieNode.data c <> zero -> occupied_below r c.

(** Every node of the graph below [r]: reached through any slots. *)
Inductive node_below (r : TrieNode.t) : TrieNode.t -> Prop :=
| node_here : node_below r r
| node_child n c :
    node_below r n -> In c (TrieNode.children n) -> node_below r c.

(** Two tries a caller cannot tell apart: the same [isWord] answer on every
    valid word and the same [getWords] result. *)
Definition observably_equal (t1 t2 : Trie.t) : Prop :=
  (forall w, valid w = true -> fst (Trie.isWord w t1) = fst (Trie.isWord w t2)) /\
  fst (Trie.getWords t1) = fst (Trie.getWords t2).

(** ** Vocabulary of the further properties *)

(** A slot is occupied when its node has [data != '\0']. *)
Definition occupied (c : TrieNode.t) : bool :=
  negb (Ascii.eqb (TrieNode.data c) zero).

(** The letter of slot [i]: ['a' + i]. *)
Definition letter (i : nat) : ascii := ascii_of_nat (97 + i).
Arguments letter : simpl never.

(** Slot/label agreement: the node in an occupied slot [i] carries the
    letter of [i], and so on below it. *)
Inductive labelled : TrieNode.t -> Prop :=
| labelled_node n :
    (forall i c, TrieNode.children n !! i = Some c -> occupied c = true ->
       TrieNode.data c = letter i /\ labelled c) ->
    labelled n.

(** The number of nodes in occupied slots below [n]. *)
Fixpoint count_nodes (n : TrieNode.t) : nat :=
  match n with
  | TrieNode.mk _ _ cs =>
      sum_list_with (fun c => if occupied c then 1 + count_nodes c else 0) cs
  end.

(** The number of nodes in occupied slots below [n] whose flag is set. *)
Fixpoint count_words (n : TrieNode.t) : nat :=
  match n with
  | TrieNode.mk _ _ cs =>
      sum_list_with
        (fun c => if occupied c
                  then (if TrieNode.isWord c then 1 else 0) + count_words c
                  else 0) cs
  end.

(** The loop over the children in [getWordsImpl], from the child it has
    reached: the same text as the inner loop, as a function of its own. *)
Fixpoint getWordsImpl_children (cs : list TrieNode.t) (st : string * list string)
  : string * list string :=
  match cs with
  | [] => st
  | child :: cs' =>
      if Ascii.eqb (TrieNode.data child) zero then getWordsImpl_children cs' st
      else
        let substr := (fst st +:+ String (TrieNode.data child) EmptyString) in
        let words := if TrieNode.isWord child then (snd st ++ [substr])%list else snd st in
        let substr := if negb (TrieNode.hasChildren child) then EmptyString else substr in
        getWordsImpl_children cs' (Trie.getWordsImpl child (substr, words))
  end.

(** The enumeration the traversal aims at, with the path buffer scoped to the
    recursion: below [n], every flagged node in an occupied slot gives the
    letters of the path to it, after [pre], in slot order. *)
Fixpoint words_from (n : TrieNode.t) (pre : string) : list string :=
  match n with
  | TrieNode.mk _ _ cs =>
      concat (map (fun c =>
                     if occupied c then
                       let s := pre +:+ String (TrieNode.data c) EmptyString in
                       ((if TrieNode.isWord c then [s] else []) ++ words_from c s)%list
                     else []) cs)
  end.

(** What the slot holding [c] contributes to [words_from] after [pre]. *)
Definition slot_words (pre : string) (c : TrieNode.t) : list string :=
  if occupied c then
    let s := pre +:+ String (TrieNode.data c) EmptyString in
    ((if TrieNode.isWord c then [s] else []) ++ words_from c s)%list
  else [].

(** Every occupied slot is on the path of a word of [W]: an occupied slot
    [i] below [n] means that [W] has a word starting with the letter of [i],
    and so on below it for the rests of those words. *)
Inductive covered : (string -> Prop) -> TrieNode.t -> Prop :=
| covered_node (W : string -> Prop) n :
    (forall i c, TrieNode.children n !! i = Some c -> occupied c = true ->
       exists w, W (String (letter i) w)) ->
    (forall i c, TrieNode.children n !! i = Some c -> occupied c = true ->
       covered (fun w => W (String (letter i) w)) c) ->
    covered W n.

(** No node at or below [n] has two occupied slots. *)
Fixpoint unbranched (n : TrieNode.t) : bool :=
  match n with
  | TrieNode.mk _ _ cs =>
      (length (filter (fun c => occupied c = true) cs) <=? 1)%nat
      && forallb (fun c => unbranched c) cs
  end.

(** No node below the root has two occupied slots: the words of the trie
    that start with the same letter form a chain of prefixes. *)
Definition chains (t : Trie.t) : bool :=
  forallb unbranched (TrieNode.children (Trie.m_root t)).

(** Two words that start with the same letter are prefixes of one another. *)
Definition chain_words (ws : list string) : Prop :=
  forall v w c v' w', In v ws -> In w ws ->
    v = String c v' -> w = String c w' ->
    String.prefix v w = true \/ String.prefix w v = true.

(** A call on a second, freshly constructed trie ([Trie t2; t2.m()]): its
    result, with the first trie left alone. *)
Definition on_fresh {A} (m : Trie.M A) : Trie.M A :=
  fun this => (fst (m Trie.Trie), this).

(** [words == std::vector<std::string>({...})] *)
Definition words_eqb (l k : list string) : bool := bool_decide (l = k).

(** The sequencing of [Trie.M], for the statements of a caller. *)
Notation "x <-- m ; k" := (Trie.bind m (fun x => k))
  (at level 20, m at level 100, k at level 200, only parsing).
Notation "m ;;; k" := (Trie.bind m (fun _ => k))
  (at level 100, k at level 200, only parsing, right associativity).

(** [void testTrie()]: the calls and assertions of the source's test, on
    [Trie t] and then on [Trie t2]. *)
Definition testTrie : outcome unit :=
  fst
    ((b <-- Trie.isWord "many"; Trie.assert_ (negb b) ;;;
      Trie.insert "many" ;;; Trie.insert "man" ;;;
      Trie.insert "quick" ;;; Trie.insert "quickly" ;;;
      b <-- Trie.isWord "many"; Trie.assert_ b ;;;
      b <-- Trie.isWord "man"; Trie.assert_ b ;;;
      b <-- Trie.isWord "ma"; Trie.assert_ (negb b) ;;;
      b <-- Trie.isWord "m"; Trie.assert_ (negb b) ;;;
      b <-- Trie.isWord "quick"; Trie.assert_ b ;;;
      b <-- Trie.isWord "quickly"; Trie.assert_ b ;;;
      b <-- Trie.isWord "mmismatch"; Trie.assert_ (negb b) ;;;
      b <-- Trie.isWord "qmismatch"; Trie.assert_ (negb b) ;;;
      b <-- Trie.isWord "z"; Trie.assert_ (negb b) ;;;
      words <-- Trie.getWords;
      Trie.assert_ (words_eqb words ["man"; "many"; "quick"; "quickly"]) ;;;
      Trie.insert "zzz" ;;;
      words <-- Trie.getWords;
      Trie.assert_ (words_eqb words ["man"; "many"; "quick"; "quickly"; "zzz"]) ;;;
      words2 <-- on_fresh Trie.getWords;
      Trie.assert_ (match words2 with [] => true | _ :: _ => false end))
       Trie.Trie).

(** ** [testTrie] of the source, replayed on the model *)

Example testTrie_fresh_isWord :
  fst (Trie.isWord "many" Trie.Trie) = Ok false.
Proof. vm_compute. reflexivity. Qed.

Example testTrie_isWord :
  let t := snd (Trie.inserts test_words Trie.Trie) in
  map (fun w => fst (Trie.isWord w t))
      ["many"; "man"; "ma"; "m"; "quick"; "quickly"; "mmismatch"; "qmismatch"; "z"]
  = map Ok [true; true; false; false; true; true; false; false; false].
Proof. vm_compute. reflexivity. Qed.

Example testTrie_getWords :
  let t := snd (Trie.inserts test_words Trie.Trie) in
  fst (Trie.getWords t) = Ok ["man"; "many"; "quick"; "quickly"].
Proof. vm_compute. reflexivity. Qed.

Example testTrie_getWords_zzz :
  let t := snd (Trie.inserts (test_words ++ ["zzz"]) Trie.Trie) in
  fst (Trie.getWords t) = Ok ["man"; "many"; "quick"; "quickly"; "zzz"].
Proof. vm_compute. reflexivity. Qed.

Example testTrie_empty : fst (Trie.getWords Trie.Trie) = Ok [].
Proof. vm_compute. reflexivity. Qed.

(** ** Valid words *)

Lemma valid_isLower s : valid s = true -> Trie.isLower s = true.
Proof. unfold valid. intros H. apply andb_true_iff in H. tauto. Qed.

Lemma valid_nonempty s : valid s = true -> s <> EmptyString.
Proof. unfold valid. intros H ->. discriminate H. Qed.

Lemma Forall_valid_isLower ws :
  Forall (fun w => valid w = true) ws -> Forall (fun w => Trie.isLower w = true) ws.
Proof. intros H. eapply Forall_impl; [exact H | exact valid_isLower]. Qed.

(** ** Letters and slots *)

Lemma islower_range c : Trie.islower c = true -> 97 <= nat_of_ascii c <= 122.
Proof.
  unfold Trie.islower. intros H. apply andb_true_iff in H as [H1 H2].
  apply Nat.leb_le in H1, H2. lia.
Qed.

Lemma to_nat_slot c : Trie.islower c = true -> Z.to_nat (Trie.slot c) = idx c.
Proof.
  intros H. apply islower_range in H. unfold Trie.slot, Trie.char_value, idx.
  destruct (Z.ltb_spec (Z.of_nat (nat_of_ascii c)) 128); lia.
Qed.

Lemma islower_idx c : Trie.islower c = true -> idx c < ALPHA_SIZE.
Proof. intros H. apply islower_range in H. unfold idx, ALPHA_SIZE. lia. Qed.

Lemma islower_nonzero c : Trie.islower c = true -> c <> zero.
Proof.
  intros H ->. apply islower_range in H.
  change (nat_of_ascii zero) with 0 in H. lia.
Qed.

Lemma islower_at c v : Trie.islower c = true -> Trie.at_ v (Trie.slot c) = v !! idx c.
Proof.
  intros H. unfold Trie.at_. rewrite (to_nat_slot c H).
  apply islower_range in H. unfold Trie.slot, Trie.char_value.
  destruct (Z.ltb_spec (Z.of_nat (nat_of_ascii c)) 128); [| lia].
  destruct (Z.ltb_spec (Z.of_nat (nat_of_ascii c) - 97) 0); [lia | reflexivity].
Qed.

Lemma idx_inj c d :
  Trie.islower c = true -> Trie.islower d = true -> idx c = idx d -> c = d.
Proof.
  intros Hc Hd E. apply islower_range in Hc, Hd. unfold idx in E.
  rewrite <- (ascii_nat_embedding c), <- (ascii_nat_embedding d).
  f_equal. lia.
Qed.

Lemma isLower_cons c s :
  Trie.isLower (String c s) = true -> Trie.islower c = true /\ Trie.isLower s = true.
Proof. simpl. intros H. apply andb_true_iff in H. exact H. Qed.

(** ** The allocation invariant *)

Lemma allocated_length n : allocated n -> length (TrieNode.children n) = ALPHA_SIZE.
Proof. now inversion 1. Qed.

Lemma allocated_slots n : allocated n -> Forall slot_ok (TrieNode.children n).
Proof. now inversion 1. Qed.

Lemma allocated_nonempty n : allocated n -> TrieNode.children n <> [].
Proof. intros H E. apply allocated_length in H. rewrite E in H. discriminate. Qed.

Lemma allocated_lookup n c :
  allocated n -> Trie.islower c = true ->
  exists x, TrieNode.children n !! idx c = Some x /\ slot_ok x.
Proof.
  intros Hn Hc.
  destruct (lookup_lt_is_Some_2 (TrieNode.children n) (idx c)) as [x Hx].
  { rewrite (allocated_length n Hn). now apply islower_idx. }
  exists x. split; [exact Hx |].
  exact (Forall_lookup_1 _ _ _ _ (allocated_slots n Hn) Hx).
Qed.

Lemma fresh_children_allocated d w :
  allocated (TrieNode.createChildren (TrieNode.mk d w [])).
Proof.
  constructor; simpl.
  - reflexivity.
  - unfold TrieNode.resize, ALPHA_SIZE. simpl.
    repeat constructor.
Qed.

Lemma Trie_allocated : allocated (Trie.m_root Trie.Trie).
Proof. apply fresh_children_allocated. Qed.

(** *** What the loop body does to the child it indexed *)

Lemma visit_data c e x : TrieNode.data (Trie.visit c e x) = c.
Proof. unfold Trie.visit. destruct e; reflexivity. Qed.

Lemma visit_isWord c e x : TrieNode.isWord (Trie.visit c e x) = e || TrieNode.isWord x.
Proof. unfold Trie.visit. destruct e, (TrieNode.children x); reflexivity. Qed.

Lemma visit_children c e x :
  TrieNode.children (Trie.visit c e x) =
  match TrieNode.children x with
  | [] => replicate ALPHA_SIZE TrieNode.default
  | _ :: _ => TrieNode.children x
  end.
Proof.
  unfold Trie.visit.
  destruct (TrieNode.children x) eqn:E; destruct e; simpl;
    unfold TrieNode.resize; rewrite ?E; reflexivity.
Qed.

Lemma visit_children_nonempty c e x : TrieNode.children (Trie.visit c e x) <> [].
Proof. rewrite visit_children. destruct (TrieNode.children x); discriminate. Qed.

Lemma visit_allocated c e x : slot_ok x -> allocated (Trie.visit c e x).
Proof.
  intros Hx. constructor; rewrite visit_children.
  - destruct Hx as [-> | [_ Hx]]; [reflexivity |].
    pose proof (allocated_length x Hx) as L.
    destruct (TrieNode.children x); [discriminate | exact L].
  - destruct Hx as [-> | [_ Hx]].
    + change (Forall slot_ok (replicate ALPHA_SIZE TrieNode.default)).
      apply Forall_replicate. now left.
    + pose proof (allocated_slots x Hx) as F.
      pose proof (allocated_length x Hx) as L.
      destruct (TrieNode.children x); [discriminate | exact F].
Qed.

(** Visiting again a node that has its slots and letter only sets the flag. *)
Lemma visit_visited c e x :
  TrieNode.children x <> [] -> TrieNode.data x = c ->
  Trie.visit c e x = if e then TrieNode.set_isWord true x else x.
Proof.
  intros Hne Hd. unfold Trie.visit. destruct x as [d w cs]; simpl in *. subst d.
  destruct cs; [congruence |]. destruct e; reflexivity.
Qed.

(** ** The loop of [insert] *)

(** One unfolding of the loop on a lowercase letter. *)
Lemma insert_loop_cons n c rest :
  Trie.islower c = true ->
  Trie.insert_loop n (String c rest) =
  match TrieNode.children n !! idx c with
  | None => None
  | Some x =>
      match Trie.insert_loop (Trie.visit c (Trie.atEnd rest) x) rest with
      | None => None
      | Some x' =>
          Some (TrieNode.set_children (<[idx c := x']> (TrieNode.children n)) n)
      end
  end.
Proof. intros Hc. simpl. rewrite (islower_at c _ Hc), (to_nat_slot c Hc). reflexivity. Qed.

(** The loop writes below [current] only: its letter and flag stay, and so
    does the number of its slots. *)
Lemma insert_loop_frame s n n' :
  Trie.insert_loop n s = Some n' ->
  TrieNode.data n' = TrieNode.data n /\
  TrieNode.isWord n' = TrieNode.isWord n /\
  length (TrieNode.children n') = length (TrieNode.children n).
Proof.
  destruct s as [| c rest]; simpl.
  - intros [= <-]. auto.
  - destruct (Trie.at_ _ _); [| discriminate].
    destruct (Trie.insert_loop _ rest); [| discriminate].
    intros [= <-]. simpl. rewrite length_insert. auto.
Qed.

(** On an allocated node and a lowercase string the loop never indexes out of
    bounds, and it leaves an allocated node. *)
Lemma insert_loop_allocated s :
  forall n, allocated n -> Trie.isLower s = true ->
  exists n', Trie.insert_loop n s = Some n' /\ allocated n'.
Proof.
  induction s as [| c rest IH]; intros n Hn Hs.
  - exists n. split; [reflexivity | exact Hn].
  - apply isLower_cons in Hs as [Hc Hrest].
    destruct (allocated_lookup n c Hn Hc) as (x & Hx & Hok).
    destruct (IH (Trie.visit c (Trie.atEnd rest) x) (visit_allocated _ _ _ Hok) Hrest)
      as (x' & Hx' & Hal).
    rewrite (insert_loop_cons _ _ _ Hc), Hx, Hx'.
    eexists. split; [reflexivity |].
    constructor; simpl.
    + rewrite length_insert. now apply allocated_length.
    + apply Forall_insert; [now apply allocated_slots |].
      right. split; [| exact Hal].
      destruct (insert_loop_frame _ _ _ Hx') as (-> & _).
      rewrite visit_data. now apply islower_nonzero.
Qed.

(** Inserting a second time changes nothing. *)
Lemma insert_loop_idem s :
  forall n n', Trie.insert_loop n s = Some n' -> Trie.insert_loop n' s = Some n'.
Proof.
  induction s as [| c rest IH]; intros n n' H.
  - reflexivity.
  - simpl in H |- *.
    unfold Trie.at_ in *.
    destruct (Z.ltb (Trie.slot c) 0); [discriminate |].
    destruct (TrieNode.children n !! Z.to_nat (Trie.slot c)) as [x |] eqn:Hx;
      [| discriminate].
    destruct (Trie.insert_loop (Trie.visit c (Trie.atEnd rest) x) rest) as [x' |] eqn:Hx';
      [| discriminate].
    injection H as <-. simpl.
    rewrite list_lookup_insert_eq by (eapply lookup_lt_Some; exact Hx).
    destruct (insert_loop_frame _ _ _ Hx') as (Hd & Hw & Hl).
    assert (Hv : Trie.visit c (Trie.atEnd rest) x' = x').
    { rewrite visit_visited.
      - destruct (Trie.atEnd rest) eqn:E; [| reflexivity].
        rewrite visit_isWord in Hw. simpl in Hw.
        destruct x'; simpl in *. now subst.
      - intros E. rewrite E in Hl.
        pose proof (visit_children_nonempty c (Trie.atEnd rest) x) as Hne.
        destruct (TrieNode.children (Trie.visit c (Trie.atEnd rest) x));
          [congruence | discriminate].
      - now rewrite Hd, visit_data. }
    rewrite Hv, (IH _ _ Hx'). simpl.
    now rewrite list_insert_insert_eq.
Qed.

(** Setting the flag of [current] and running the loop from it commute. *)
Lemma insert_loop_set_isWord s n b :
  Trie.insert_loop (TrieNode.set_isWord b n) s =
  TrieNode.set_isWord b <$> Trie.insert_loop n s.
Proof.
  destruct s as [| c rest]; simpl; [reflexivity |].
  destruct (Trie.at_ _ _); [| reflexivity].
  destruct (Trie.insert_loop _ rest); reflexivity.
Qed.

Lemma visit_comm c e1 e2 x :
  Trie.visit c e1 (Trie.visit c e2 x) = Trie.visit c e2 (Trie.visit c e1 x).
Proof.
  destruct x as [d w cs]. unfold Trie.visit.
  destruct cs, e1, e2; reflexivity.
Qed.

(** The loop run from a visited node, then a further visit of the result:
    the visit can be done first. *)
Lemma insert_loop_visit s c e e' x x' :
  Trie.insert_loop (Trie.visit c e x) s = Some x' ->
  Trie.insert_loop (Trie.visit c e' (Trie.visit c e x)) s = Some (Trie.visit c e' x').
Proof.
  intros H.
  destruct (insert_loop_frame _ _ _ H) as (Hd & _ & Hl).
  rewrite visit_data in Hd.
  rewrite (visit_visited c e' x'); [| | exact Hd].
  - rewrite visit_visited;
      [| apply visit_children_nonempty | apply visit_data].
    destruct e'; [| exact H].
    rewrite insert_loop_set_isWord, H. reflexivity.
  - intros E. rewrite E in Hl.
    pose proof (visit_children_nonempty c e x) as Hne.
    destruct (TrieNode.children (Trie.visit c e x)); [congruence | discriminate].
Qed.

(** Two insertions commute. *)
Lemma insert_loop_comm a :
  forall b n, allocated n -> Trie.isLower a = true -> Trie.isLower b = true ->
  forall na nb,
    Trie.insert_loop n a = Some na -> Trie.insert_loop n b = Some nb ->
    Trie.insert_loop na b = Trie.insert_loop nb a.
Proof.
  induction a as [| c a' IH]; intros b n Hn Ha Hb na nb Hna Hnb.
  { injection Hna as <-. now rewrite Hnb. }
  destruct b as [| d b'].
  { injection Hnb as <-. now rewrite Hna. }
  apply isLower_cons in Ha as [Hc Ha'], Hb as [Hd Hb'].
  rewrite (insert_loop_cons _ _ _ Hc) in Hna.
  rewrite (insert_loop_cons _ _ _ Hd) in Hnb.
  destruct (allocated_lookup n c Hn Hc) as (x & Hx & Hxok).
  destruct (allocated_lookup n d Hn Hd) as (y & Hy & Hyok).
  rewrite Hx in Hna. rewrite Hy in Hnb.
  destruct (Trie.insert_loop (Trie.visit c (Trie.atEnd a') x) a') as [xa |] eqn:Hxa;
    [| discriminate].
  destruct (Trie.insert_loop (Trie.visit d (Trie.atEnd b') y) b') as [yb |] eqn:Hyb;
    [| discriminate].
  injection Hna as <-. injection Hnb as <-.
  rewrite (insert_loop_cons _ _ _ Hc), (insert_loop_cons _ _ _ Hd). simpl.
  pose proof (lookup_lt_Some _ _ _ Hx) as Lx.
  pose proof (lookup_lt_Some _ _ _ Hy) as Ly.
  destruct (decide (c = d)) as [<- | Hne].
  - assert (y = x) as -> by congruence.
    rewrite !list_lookup_insert_eq by assumption.
    assert (Hp : allocated (Trie.visit c (Trie.atEnd b') (Trie.visit c (Trie.atEnd a') x))).
    { apply visit_allocated. right. split.
      - rewrite visit_data. now apply islower_nonzero.
      - now apply visit_allocated. }
    pose proof (insert_loop_visit _ _ _ (Trie.atEnd b') _ _ Hxa) as H1.
    pose proof (insert_loop_visit _ _ _ (Trie.atEnd a') _ _ Hyb) as H2.
    rewrite visit_comm in H2.
    rewrite (IH b' _ Hp Ha' Hb' _ _ H1 H2).
    destruct (Trie.insert_loop (Trie.visit c (Trie.atEnd a') yb) a'); [| reflexivity].
    now rewrite !list_insert_insert_eq.
  - assert (idx c <> idx d) as Hi by (intros E; apply Hne; now apply idx_inj).
    rewrite list_lookup_insert_ne by assumption.
    rewrite list_lookup_insert_ne by (now apply not_eq_sym).
    rewrite Hx, Hy, Hxa, Hyb.
    now rewrite list_insert_insert_ne.
Qed.

(** ** The loop of [isWord] *)

(** From an empty slot the loop stops at once with the flag it has. *)
Lemma isWord_loop_default b w : Trie.isWord_loop TrieNode.default b w = Some b.
Proof. destruct w; reflexivity. Qed.

(** One unfolding of the loop on a lowercase letter. *)
Lemma isWord_loop_cons n b d w :
  TrieNode.children n <> [] -> Trie.islower d = true ->
  Trie.isWord_loop n b (String d w) =
  match TrieNode.children n !! idx d with
  | None => None
  | Some x => Trie.isWord_loop x (TrieNode.isWord x) w
  end.
Proof.
  intros Hne Hd. simpl. rewrite (islower_at d _ Hd).
  destruct (TrieNode.children n); [congruence | reflexivity].
Qed.

(** Below a node just visited the loop finds what it found below the slot
    before the visit. *)
Lemma isWord_loop_visit c e x b w :
  slot_ok x -> w <> EmptyString -> Trie.isLower w = true ->
  Trie.isWord_loop (Trie.visit c e x) b w = Trie.isWord_loop x (TrieNode.isWord x) w.
Proof.
  intros Hx Hw Hl. destruct w as [| d w']; [congruence |].
  apply isLower_cons in Hl as [Hd _].
  rewrite isWord_loop_cons; [| apply visit_children_nonempty | exact Hd].
  rewrite visit_children.
  destruct Hx as [-> | [_ Hx]].
  - change (TrieNode.children TrieNode.default) with (@nil TrieNode.t).
    cbv iota. rewrite lookup_replicate_2 by now apply islower_idx.
    now rewrite !isWord_loop_default.
  - pose proof (allocated_nonempty x Hx) as Hne.
    rewrite (isWord_loop_cons x _ d w' Hne Hd).
    destruct (TrieNode.children x); [congruence | reflexivity].
Qed.

(** After the loop of [insert] on [s], the loop of [isWord] on [s] ends on a
    node whose flag is set. *)
Lemma insert_loop_isWord_same s :
  forall n n' b, allocated n -> Trie.isLower s = true -> s <> EmptyString ->
  Trie.insert_loop n s = Some n' -> Trie.isWord_loop n' b s = Some true.
Proof.
  induction s as [| c rest IH]; intros n n' b Hn Hs Hne H; [congruence |].
  apply isLower_cons in Hs as [Hc Hrest].
  destruct (insert_loop_frame _ _ _ H) as (_ & _ & Hl).
  rewrite (insert_loop_cons _ _ _ Hc) in H.
  destruct (allocated_lookup n c Hn Hc) as (x & Hx & Hok). rewrite Hx in H.
  destruct (Trie.insert_loop (Trie.visit c (Trie.atEnd rest) x) rest) as [x' |] eqn:Hx';
    [| discriminate].
  injection H as <-.
  rewrite isWord_loop_cons; [| | exact Hc].
  2:{ simpl. intros E. simpl in Hl. rewrite E in Hl.
      rewrite (allocated_length n Hn) in Hl. discriminate. }
  simpl. rewrite list_lookup_insert_eq by (eapply lookup_lt_Some; exact Hx).
  destruct rest as [| c' rest'].
  - change (Some (Trie.visit c true x) = Some x') in Hx'.
    assert (x' = Trie.visit c true x) as -> by congruence.
    cbn [Trie.isWord_loop]. now rewrite visit_isWord.
  - eapply IH; [apply visit_allocated; exact Hok | exact Hrest | discriminate | exact Hx'].
Qed.

(** ... and the loop of [isWord] on any other word finds what it found
    before. *)
Lemma insert_loop_isWord_other s :
  forall n n' b w, allocated n -> Trie.isLower s = true ->
  Trie.isLower w = true -> w <> EmptyString -> w <> s ->
  Trie.insert_loop n s = Some n' -> Trie.isWord_loop n' b w = Trie.isWord_loop n b w.
Proof.
  induction s as [| c rest IH]; intros n n' b w Hn Hs Hw Hwne Hws H.
  { injection H as <-. reflexivity. }
  destruct (insert_loop_allocated _ n Hn Hs) as (n2 & Hn2 & Hal2).
  apply isLower_cons in Hs as [Hc Hrest].
  destruct w as [| d w']; [congruence |].
  apply isLower_cons in Hw as [Hd Hw'].
  rewrite H in Hn2. injection Hn2 as <-.
  rewrite (insert_loop_cons _ _ _ Hc) in H.
  destruct (allocated_lookup n c Hn Hc) as (x & Hx & Hok). rewrite Hx in H.
  destruct (Trie.insert_loop (Trie.visit c (Trie.atEnd rest) x) rest) as [x' |] eqn:Hx';
    [| discriminate].
  injection H as <-.
  rewrite !isWord_loop_cons by (try apply allocated_nonempty; assumption).
  simpl.
  destruct (decide (c = d)) as [<- | Hcd].
  - rewrite list_lookup_insert_eq by (eapply lookup_lt_Some; exact Hx).
    rewrite Hx.
    assert (w' <> rest) as Hne by congruence.
    destruct (insert_loop_frame _ _ _ Hx') as (_ & Hf & _).
    rewrite visit_isWord in Hf.
    destruct w' as [| e w''].
    + simpl. rewrite Hf. destruct rest; [congruence | reflexivity].
    + rewrite (IH _ _ _ (String e w'') (visit_allocated _ _ _ Hok) Hrest Hw'
                 ltac:(discriminate) Hne Hx').
      apply isWord_loop_visit; [exact Hok | discriminate | exact Hw'].
  - rewrite list_lookup_insert_ne; [reflexivity |].
    intros E. apply Hcd. now apply idx_inj.
Qed.

(** In a freshly constructed trie the loop finds no word. *)
Lemma isWord_loop_fresh w :
  Trie.isLower w = true -> Trie.isWord_loop (Trie.m_root Trie.Trie) false w = Some false.
Proof.
  destruct w as [| d w']; [reflexivity |].
  intros Hw. apply isLower_cons in Hw as [Hd _].
  rewrite isWord_loop_cons; [| discriminate | exact Hd].
  change (TrieNode.children (Trie.m_root Trie.Trie))
    with (replicate ALPHA_SIZE TrieNode.default).
  rewrite lookup_replicate_2 by now apply islower_idx.
  apply isWord_loop_default.
Qed.

(** ** The methods *)

Lemma insert_ok s t r :
  Trie.isLower s = true -> Trie.insert_loop (Trie.m_root t) s = Some r ->
  Trie.insert s t = (Ok {| Trie.m_root := r |}, {| Trie.m_root := r |}).
Proof.
  intros Hs Hr. unfold Trie.insert, Trie.bind, Trie.assert_, Trie.get_root, Trie.defined.
  rewrite Hs, Hr. reflexivity.
Qed.

Lemma insert_abort s t : Trie.isLower s = false -> Trie.insert s t = (AssertFail, t).
Proof. intros Hs. unfold Trie.insert, Trie.bind, Trie.assert_. now rewrite Hs. Qed.

Lemma isWord_ok s t b :
  Trie.isLower s = true -> Trie.isWord_loop (Trie.m_root t) false s = Some b ->
  Trie.isWord s t = (Ok b, t).
Proof.
  intros Hs Hb. unfold Trie.isWord, Trie.bind, Trie.assert_, Trie.get_root, Trie.defined.
  rewrite Hs, Hb. reflexivity.
Qed.

Lemma isWord_abort s t : Trie.isLower s = false -> Trie.isWord s t = (AssertFail, t).
Proof. intros Hs. unfold Trie.isWord, Trie.bind, Trie.assert_. now rewrite Hs. Qed.

Lemma getWords_ok t :
  Trie.getWords t = (Ok (snd (Trie.getWordsImpl (Trie.m_root t) (EmptyString, []))), t).
Proof. reflexivity. Qed.

Lemma inserts_cons w ws t t' :
  Trie.insert w t = (Ok t', t') -> Trie.inserts (w :: ws) t = Trie.inserts ws t'.
Proof. intros H. simpl. unfold Trie.bind. now rewrite H. Qed.

(** [insert] of a lowercase string on a trie with an allocated root returns,
    and the root is allocated afterwards. *)
Lemma insert_allocated w t :
  allocated (Trie.m_root t) -> Trie.isLower w = true ->
  exists t', Trie.insert w t = (Ok t', t') /\
             Trie.insert_loop (Trie.m_root t) w = Some (Trie.m_root t') /\
             allocated (Trie.m_root t').
Proof.
  intros Ht Hw.
  destruct (insert_loop_allocated w _ Ht Hw) as (r & Hr & Hal).
  exists {| Trie.m_root := r |}. split; [now apply insert_ok | split; assumption].
Qed.

(** What a chain of insertions reaches: it returns, the root stays allocated
    and keeps its letter and flag, and the loop of [isWord] finds exactly the
    words of the chain on top of what it found before. *)
Lemma inserts_spec ws :
  forall t, allocated (Trie.m_root t) ->
  Forall (fun w => Trie.isLower w = true) ws ->
  exists t',
    Trie.inserts ws t = (Ok tt, t') /\
    allocated (Trie.m_root t') /\
    TrieNode.data (Trie.m_root t') = TrieNode.data (Trie.m_root t) /\
    TrieNode.isWord (Trie.m_root t') = TrieNode.isWord (Trie.m_root t) /\
    forall w, Trie.isLower w = true -> w <> EmptyString ->
      Trie.isWord_loop (Trie.m_root t') false w =
      if decide (w ∈ ws) then Some true
      else Trie.isWord_loop (Trie.m_root t) false w.
Proof.
  induction ws as [| v ws IH]; intros t Ht Hws.
  - exists t. do 4 (split; [reflexivity || assumption |]).
    intros w _ _. destruct (decide (w ∈ [])) as [Hin |]; [| reflexivity].
    now apply not_elem_of_nil in Hin.
  - apply Forall_cons in Hws as [Hv Hws].
    destruct (insert_allocated v t Ht Hv) as (t1 & H1 & Hl1 & Hal1).
    destruct (IH t1 Hal1 Hws) as (t' & H' & Hal' & Hd & Hf & Hmem).
    destruct (insert_loop_frame _ _ _ Hl1) as (Hd1 & Hf1 & _).
    exists t'. rewrite (inserts_cons _ _ _ _ H1).
    split; [exact H' |]. split; [exact Hal' |].
    split; [congruence |]. split; [congruence |].
    intros w Hw Hne. rewrite (Hmem w Hw Hne).
    destruct (decide (w ∈ ws)) as [Hin | Hnin].
    + destruct (decide (w ∈ v :: ws)) as [| Hn]; [reflexivity |].
      exfalso. apply Hn. now apply list_elem_of_further.
    + destruct (decide (w = v)) as [-> | Hwv].
      * destruct (decide (v ∈ v :: ws)) as [| Hn];
          [| exfalso; apply Hn; apply list_elem_of_here].
        now apply (insert_loop_isWord_same v (Trie.m_root t)).
      * destruct (decide (w ∈ v :: ws)) as [Hin | _].
        { apply elem_of_cons in Hin as [E | Hin]; [congruence | tauto]. }
        now apply (insert_loop_isWord_other v (Trie.m_root t)).
Qed.

(** A chain of insertions into a freshly constructed trie. *)
Lemma inserts_fresh ws :
  Forall (fun w => valid w = true) ws ->
  exists t,
    Trie.inserts ws Trie.Trie = (Ok tt, t) /\
    allocated (Trie.m_root t) /\
    TrieNode.data (Trie.m_root t) = zero /\
    TrieNode.isWord (Trie.m_root t) = false /\
    forall w, valid w = true ->
      Trie.isWord w t = (Ok (bool_decide (w ∈ ws)), t).
Proof.
  intros Hws.
  destruct (inserts_spec ws Trie.Trie Trie_allocated (Forall_valid_isLower _ Hws))
    as (t & H & Hal & Hd & Hf & Hmem).
  exists t. do 4 (split; [assumption |]).
  intros w Hw. apply isWord_ok; [now apply valid_isLower |].
  rewrite (Hmem w (valid_isLower _ Hw) (valid_nonempty _ Hw)).
  rewrite (isWord_loop_fresh w (valid_isLower _ Hw)).
  destruct (decide (w ∈ ws));
    [rewrite bool_decide_eq_true_2 by assumption
    | rewrite bool_decide_eq_false_2 by assumption]; reflexivity.
Qed.

(** The loop of [isWord] never indexes out of bounds below an allocated node
    or an empty slot. *)
Lemma isWord_loop_defined w :
  forall n b, n = TrieNode.default \/ allocated n -> Trie.isLower w = true ->
  exists r, Trie.isWord_loop n b w = Some r.
Proof.
  induction w as [| d w' IH]; intros n b Hn Hw.
  - exists b. reflexivity.
  - destruct Hn as [-> | Hn]; [exists b; apply isWord_loop_default |].
    apply isLower_cons in Hw as [Hd Hw'].
    rewrite (isWord_loop_cons n b d w' (allocated_nonempty n Hn) Hd).
    destruct (allocated_lookup n d Hn Hd) as (x & -> & [-> | [_ Hx]]).
    + apply IH; [now left | exact Hw'].
    + apply IH; [now right | exact Hw'].
Qed.

(** Chains of insertions that are permutations of one another reach the same
    trie. *)
Lemma inserts_permutation ws1 ws2 :
  Permutation ws1 ws2 ->
  forall t, allocated (Trie.m_root t) ->
  Forall (fun w => Trie.isLower w = true) ws1 ->
  Trie.inserts ws1 t = Trie.inserts ws2 t.
Proof.
  induction 1 as [| x l l' HP IH | x y l | l l' l'' HP1 IH1 HP2 IH2]; intros t Ht Hl.
  - reflexivity.
  - apply Forall_cons in Hl as [Hx Hl].
    destruct (insert_allocated x t Ht Hx) as (t1 & H1 & _ & Hal1).
    rewrite !(inserts_cons _ _ _ _ H1). now apply IH.
  - apply Forall_cons in Hl as [Hy Hl]. apply Forall_cons in Hl as [Hx Hl].
    destruct (insert_allocated y t Ht Hy) as (ty & Hty & Hly & Haly).
    destruct (insert_allocated x ty Haly Hx) as (tyx & Htyx & Hlyx & _).
    destruct (insert_allocated x t Ht Hx) as (tx & Htx & Hlx & Halx).
    destruct (insert_allocated y tx Halx Hy) as (txy & Htxy & Hlxy & _).
    rewrite (inserts_cons _ _ _ _ Hty), (inserts_cons _ _ _ _ Htyx).
    rewrite (inserts_cons _ _ _ _ Htx), (inserts_cons _ _ _ _ Htxy).
    pose proof (insert_loop_comm y x _ Ht Hy Hx _ _ Hly Hlx) as E.
    rewrite Hlyx, Hlxy in E. injection E as E.
    destruct tyx, txy; simpl in E. now subst.
  - rewrite (IH1 t Ht Hl). apply (IH2 t Ht).
    eapply Permutation_Forall; eassumption.
Qed.

(** ** Nodes of the graph, and sequences of calls *)

Lemma occupied_below_allocated r n :
  allocated r -> occupied_below r n -> allocated n.
Proof.
  intros Hr. induction 1 as [| n c _ IH Hin Hd]; [exact Hr |].
  pose proof (allocated_slots n IH) as F.
  rewrite Forall_forall in F. apply list_elem_of_In in Hin.
  destruct (F c Hin) as [-> | [_ Hc]]; [| exact Hc].
  now contradiction Hd.
Qed.

Lemma node_below_allocated r n :
  allocated r -> node_below r n -> n = TrieNode.default \/ allocated n.
Proof.
  intros Hr. induction 1 as [| n c _ IH Hin]; [now right |].
  destruct IH as [-> | Hn]; [destruct Hin |].
  pose proof (allocated_slots n Hn) as F.
  rewrite Forall_forall in F. apply list_elem_of_In in Hin.
  destruct (F c Hin) as [-> | [_ Hc]]; [now left | now right].
Qed.

Lemma bind_ok {A B} (m : Trie.M A) (k : A -> Trie.M B) t a t' :
  m t = (Ok a, t') -> Trie.bind m k t = k a t'.
Proof. intros H. unfold Trie.bind. now rewrite H. Qed.

(** A valid operation on a trie with an allocated root returns, and leaves
    the root allocated, with its letter and flag. *)
Lemma run_op_spec o t :
  allocated (Trie.m_root t) -> valid_op o = true ->
  exists t',
    run_op o t = (Ok tt, t') /\
    allocated (Trie.m_root t') /\
    TrieNode.data (Trie.m_root t') = TrieNode.data (Trie.m_root t) /\
    TrieNode.isWord (Trie.m_root t') = TrieNode.isWord (Trie.m_root t).
Proof.
  intros Ht Ho. destruct o as [s | s |]; cbn [valid_op run_op] in *.
  - destruct (insert_allocated s t Ht (valid_isLower _ Ho)) as (t1 & H1 & Hl1 & Hal1).
    destruct (insert_loop_frame _ _ _ Hl1) as (Hd1 & Hf1 & _).
    exists t1. rewrite (bind_ok _ _ _ _ _ H1). auto.
  - destruct (isWord_loop_defined s (Trie.m_root t) false (or_intror Ht)
                (valid_isLower _ Ho)) as (b & Hb).
    exists t. rewrite (bind_ok _ _ _ _ _ (isWord_ok s t b (valid_isLower _ Ho) Hb)). auto.
  - exists t. rewrite (bind_ok _ _ _ _ _ (getWords_ok t)). auto.
Qed.

Lemma run_ops_spec os :
  forall t, allocated (Trie.m_root t) ->
  Forall (fun o => valid_op o = true) os ->
  exists t',
    run_ops os t = (Ok tt, t') /\
    allocated (Trie.m_root t') /\
    TrieNode.data (Trie.m_root t') = TrieNode.data (Trie.m_root t) /\
    TrieNode.isWord (Trie.m_root t') = TrieNode.isWord (Trie.m_root t).
Proof.
  induction os as [| o os IH]; intros t Ht Hos.
  - exists t. split; [reflexivity |]. split; [exact Ht |]. split; reflexivity.
  - apply Forall_cons in Hos as [Ho Hos].
    destruct (run_op_spec o t Ht Ho) as (t1 & H1 & Hal1 & Hd1 & Hf1).
    destruct (IH t1 Hal1 Hos) as (t' & H' & Hal' & Hd & Hf).
    exists t'. cbn [run_ops]. rewrite (bind_ok _ _ _ _ _ H1).
    split; [exact H' |]. split; [exact Hal' |]. split; congruence.
Qed.

(** ** The properties *)

(** C1 (round-trip enumeration) fails on the code: [getWordsImpl] clears
    [substr] at a leaf instead of removing the one letter it appended, so the
    sibling visited next loses the prefix they share.  After [insert("ab")]
    and [insert("ac")] on a fresh trie, [getWords()] returns ["ab"; "c"],
    not ["ab"; "ac"]. *)
Theorem C1_getWords_after_ab_ac :
  exists t,
    Trie.inserts ["ab"; "ac"] Trie.Trie = (Ok tt, t) /\
    Trie.getWords t = (Ok ["ab"; "c"], t).
Proof. eexists. split; vm_compute; reflexivity. Qed.

(** C2 (sorted enumeration) fails on the code for the same reason: after
    [insert("ba")] and [insert("bb")] on a fresh trie, [getWords()] returns
    ["ba"; "b"], which is not in strictly increasing order. *)
Theorem C2_getWords_after_ba_bb :
  exists t ws,
    Trie.inserts ["ba"; "bb"] Trie.Trie = (Ok tt, t) /\
    Trie.getWords t = (Ok ws, t) /\
    ws = ["ba"; "b"] /\
    strictly_increasing ws = false.
Proof. do 2 eexists. repeat split; vm_compute; reflexivity. Qed.

(** C3: membership is exactly prior insertion.  On the trie built from a
    fresh one by inserting the valid words [ws], [isWord(w)] on a valid word
    [w] returns, and returns true if and only if [w] is among [ws]; after one
    more [insert(w)], [isWord(w)] is true; and a word that was never inserted
    but is a strict prefix or a strict extension of an inserted one gives
    false. *)
Theorem C3_isWord_iff_inserted ws w :
  Forall (fun v => valid v = true) ws -> valid w = true ->
  exists t,
    Trie.inserts ws Trie.Trie = (Ok tt, t) /\
    (exists b, Trie.isWord w t = (Ok b, t) /\ (b = true <-> In w ws)) /\
    (exists t', Trie.insert w t = (Ok t', t') /\ Trie.isWord w t' = (Ok true, t')) /\
    (forall v, In v ws -> ~ In w ws ->
       strict_prefix w v = true \/ strict_prefix v w = true ->
       Trie.isWord w t = (Ok false, t)).
Proof.
  intros Hws Hw.
  destruct (inserts_fresh ws Hws) as (t & H & Hal & _ & _ & Hmem).
  exists t. split; [exact H |]. split; [| split].
  - exists (bool_decide (w ∈ ws)). split; [now apply Hmem |].
    rewrite bool_decide_eq_true. apply list_elem_of_In.
  - destruct (insert_allocated w t Hal (valid_isLower _ Hw)) as (t' & H' & Hl & _).
    exists t'. split; [exact H' |].
    apply isWord_ok; [now apply valid_isLower |].
    apply (insert_loop_isWord_same w (Trie.m_root t));
      [exact Hal | now apply valid_isLower | now apply valid_nonempty | exact Hl].
  - intros v _ Hnin _. rewrite (Hmem w Hw).
    rewrite bool_decide_eq_false_2; [reflexivity |].
    intros Hin. apply Hnin. now apply list_elem_of_In.
Qed.

Lemma C3_isWord_iff_inserted_witness :
  Forall (fun v => valid v = true) ["car"; "cart"] /\ valid "ca" = true /\
  exists t,
    Trie.inserts ["car"; "cart"] Trie.Trie = (Ok tt, t) /\
    (exists b, Trie.isWord "ca" t = (Ok b, t) /\ (b = true <-> In "ca" ["car"; "cart"])) /\
    (exists t', Trie.insert "ca" t = (Ok t', t') /\ Trie.isWord "ca" t' = (Ok true, t')) /\
    (forall v, In v ["car"; "cart"] -> ~ In "ca" ["car"; "cart"] ->
       strict_prefix "ca" v = true \/ strict_prefix v "ca" = true ->
       Trie.isWord "ca" t = (Ok false, t)).
Proof.
  split; [repeat constructor |]. split; [reflexivity |].
  apply (C3_isWord_iff_inserted ["car"; "cart"] "ca"); [repeat constructor | reflexivity].
Defined.

(** C4, as stated, fails on the empty string: [isLower] of the empty string holds, so the
    assertion of [insert] and of [isWord] lets it through. *)
Lemma C4_empty_string_passes_assert :
  valid EmptyString = false /\
  fst (Trie.insert EmptyString Trie.Trie) <> AssertFail /\
  fst (Trie.isWord EmptyString Trie.Trie) <> AssertFail.
Proof. repeat split; discriminate. Qed.

(** [islower] accepts exactly the lowercase letters. *)
Lemma islower_lowercase_letter c : Trie.islower c = true <-> lowercase_letter c.
Proof.
  unfold Trie.islower, lowercase_letter.
  change (nat_of_ascii "a") with 97. change (nat_of_ascii "z") with 122.
  rewrite andb_true_iff, !Nat.leb_le. reflexivity.
Qed.

(** [isLower] fails exactly on the strings that have, somewhere, a character
    that is not a lowercase letter. *)
Lemma isLower_false_iff s :
  Trie.isLower s = false <->
  exists c, In c (list_ascii_of_string s) /\ ~ lowercase_letter c.
Proof.
  induction s as [| a s IH]; simpl.
  - split; [discriminate | intros (c & [] & _)].
  - rewrite andb_false_iff, IH. split.
    + intros [Ha | (c & Hc & Hn)].
      * exists a. split; [now left |].
        rewrite <- islower_lowercase_letter, Ha. discriminate.
      * exists c. split; [now right | exact Hn].
    + intros (c & [<- | Hc] & Hn).
      * left. destruct (Trie.islower a) eqn:Ha; [| reflexivity].
        now apply islower_lowercase_letter in Ha.
      * right. now exists c.
Qed.

(** C4 (amended): with assertions compiled in, [insert] and [isWord] abort
    on every string that has, at any position, a character outside [a..z],
    and the trie is then as it was before the call. *)
Theorem C4_not_lowercase_aborts s t :
  (exists c, In c (list_ascii_of_string s) /\ ~ lowercase_letter c) ->
  Trie.insert s t = (AssertFail, t) /\ Trie.isWord s t = (AssertFail, t).
Proof.
  intros Hs. apply isLower_false_iff in Hs.
  split; [now apply insert_abort | now apply isWord_abort].
Qed.

Lemma C4_not_lowercase_aborts_witness :
  (exists c, In c (list_ascii_of_string "aB") /\ ~ lowercase_letter c) /\
  Trie.insert "aB" Trie.Trie = (AssertFail, Trie.Trie) /\
  Trie.isWord "aB" Trie.Trie = (AssertFail, Trie.Trie).
Proof.
  assert (H : exists c, In c (list_ascii_of_string "aB") /\ ~ lowercase_letter c).
  { exists "B"%char. split; [right; left; reflexivity |].
    unfold lowercase_letter. vm_compute. lia. }
  split; [exact H |].
  apply (C4_not_lowercase_aborts "aB" Trie.Trie). exact H.
Defined.

(** C5: [insert] is idempotent.  On a trie built by valid insertions, a
    second [insert(w)] of a valid word returns and leaves the very state the
    first one left, hence the same [isWord] answers and the same [getWords]
    result. *)
Theorem C5_insert_idempotent ws w :
  Forall (fun v => valid v = true) ws -> valid w = true ->
  exists t t1 t2,
    Trie.inserts ws Trie.Trie = (Ok tt, t) /\
    Trie.insert w t = (Ok t1, t1) /\
    Trie.insert w t1 = (Ok t2, t2) /\
    t2 = t1 /\ observably_equal t2 t1.
Proof.
  intros Hws Hw.
  destruct (inserts_fresh ws Hws) as (t & H & Hal & _).
  destruct (insert_allocated w t Hal (valid_isLower _ Hw)) as (t1 & H1 & Hl & _).
  exists t, t1, t1. split; [exact H |]. split; [exact H1 |].
  split; [| split; [reflexivity | split; reflexivity]].
  rewrite (insert_ok w t1 (Trie.m_root t1) (valid_isLower _ Hw) (insert_loop_idem _ _ _ Hl)).
  now destruct t1.
Qed.

Lemma C5_insert_idempotent_witness :
  Forall (fun v => valid v = true) ["man"; "many"] /\ valid "ma" = true /\
  exists t t1 t2,
    Trie.inserts ["man"; "many"] Trie.Trie = (Ok tt, t) /\
    Trie.insert "ma" t = (Ok t1, t1) /\
    Trie.insert "ma" t1 = (Ok t2, t2) /\
    t2 = t1 /\ observably_equal t2 t1.
Proof.
  split; [repeat constructor |]. split; [reflexivity |].
  apply (C5_insert_idempotent ["man"; "many"] "ma"); [repeat constructor | reflexivity].
Defined.

(** C6: the order of insertion is irrelevant.  Inserting the valid words of a
    list, or of any permutation of it, into a fresh trie returns in both
    cases, and the two tries give the same [isWord] answer on every valid
    word and the same [getWords] result (they are the same trie). *)
Theorem C6_insert_order_irrelevant ws1 ws2 :
  Forall (fun v => valid v = true) ws1 -> Permutation ws1 ws2 ->
  exists t1 t2,
    Trie.inserts ws1 Trie.Trie = (Ok tt, t1) /\
    Trie.inserts ws2 Trie.Trie = (Ok tt, t2) /\
    t1 = t2 /\ observably_equal t1 t2.
Proof.
  intros Hws HP.
  destruct (inserts_fresh ws1 Hws) as (t & H & _).
  exists t, t. split; [exact H |]. split.
  - rewrite <- (inserts_permutation ws1 ws2 HP Trie.Trie Trie_allocated
                  (Forall_valid_isLower _ Hws)).
    exact H.
  - split; [reflexivity | split; reflexivity].
Qed.

Lemma C6_insert_order_irrelevant_witness :
  Forall (fun v => valid v = true) ["ab"; "a"; "zzz"] /\
  Permutation ["ab"; "a"; "zzz"] ["zzz"; "ab"; "a"] /\
  exists t1 t2,
    Trie.inserts ["ab"; "a"; "zzz"] Trie.Trie = (Ok tt, t1) /\
    Trie.inserts ["zzz"; "ab"; "a"] Trie.Trie = (Ok tt, t2) /\
    t1 = t2 /\ observably_equal t1 t2.
Proof.
  assert (HP : Permutation ["ab"; "a"; "zzz"] ["zzz"; "ab"; "a"]).
  { apply (Permutation_cons_app ["zzz"] ["a"] "ab"). apply perm_swap. }
  split; [repeat constructor |]. split; [exact HP |].
  apply (C6_insert_order_irrelevant ["ab"; "a"; "zzz"] ["zzz"; "ab"; "a"]);
    [repeat constructor | exact HP].
Defined.

(** C7: the read operations are pure.  On any trie and any argument, also
    when the call aborts, [isWord] and [getWords] leave the trie (labels,
    flags and slots of every node) as it was; every later [isWord] answer
    and [getWords] result is therefore what it was before the call. *)
Theorem C7_reads_leave_trie_unchanged t s :
  snd (Trie.isWord s t) = t /\
  snd (Trie.getWords t) = t /\
  (forall v, Trie.isWord v (snd (Trie.isWord s t)) = Trie.isWord v t) /\
  (forall v, Trie.isWord v (snd (Trie.getWords t)) = Trie.isWord v t) /\
  Trie.getWords (snd (Trie.isWord s t)) = Trie.getWords t /\
  Trie.getWords (snd (Trie.getWords t)) = Trie.getWords t.
Proof.
  assert (H1 : snd (Trie.isWord s t) = t).
  { unfold Trie.isWord, Trie.bind, Trie.assert_, Trie.get_root, Trie.defined.
    destruct (Trie.isLower s); [| reflexivity].
    destruct (Trie.isWord_loop (Trie.m_root t) false s); reflexivity. }
  assert (H2 : snd (Trie.getWords t) = t) by reflexivity.
  rewrite H1, H2. repeat split; reflexivity.
Qed.

(** C8: root identity.  After any sequence of [insert], [isWord] and
    [getWords] calls on valid words, starting from a freshly constructed trie
    (the empty sequence included), every call has returned and the root has
    [data == '\0'] and [isWord == false]. *)
Theorem C8_root_identity os :
  Forall (fun o => valid_op o = true) os ->
  exists t,
    run_ops os Trie.Trie = (Ok tt, t) /\
    TrieNode.data (Trie.m_root t) = zero /\
    TrieNode.isWord (Trie.m_root t) = false.
Proof.
  intros Hos.
  destruct (run_ops_spec os Trie.Trie Trie_allocated Hos) as (t & H & _ & Hd & Hf).
  exists t. split; [exact H |]. split; [exact Hd | exact Hf].
Qed.

Lemma C8_root_identity_witness :
  Forall (fun o => valid_op o = true)
         [Insert "ab"; IsWord "a"; Insert "a"; GetWords; IsWord "a"] /\
  exists t,
    run_ops [Insert "ab"; IsWord "a"; Insert "a"; GetWords; IsWord "a"] Trie.Trie
      = (Ok tt, t) /\
    TrieNode.data (Trie.m_root t) = zero /\
    TrieNode.isWord (Trie.m_root t) = false.
Proof.
  split; [repeat constructor |].
  apply (C8_root_identity [Insert "ab"; IsWord "a"; Insert "a"; GetWords; IsWord "a"]).
  repeat constructor.
Defined.

(** C9: the empty string at the public interface.  On every trie,
    [isWord] of the empty string passes the assertion and returns false;
    [insert] of the empty string passes the assertion, returns the trie
    itself and leaves it as it was; and [isLower] of the empty string is
    true. *)
Theorem C9_empty_string t :
  Trie.isWord EmptyString t = (Ok false, t) /\
  Trie.insert EmptyString t = (Ok t, t) /\
  Trie.isLower EmptyString = true.
Proof.
  split; [reflexivity |]. split; [| reflexivity].
  destruct t. reflexivity.
Qed.

(** C10: allocation of occupied nodes.  After any chain of valid insertions
    into a fresh trie, the root and every node reached from it through
    occupied slots has exactly [ALPHA_SIZE] = 26 children, and each of its
    empty slots holds a value-initialised node ([data == '\0'], [isWord]
    false, no children); and no node of the graph with [isWord] set has an
    empty [children] vector. *)
Theorem C10_allocation_invariant ws :
  Forall (fun v => valid v = true) ws ->
  exists t,
    Trie.inserts ws Trie.Trie = (Ok tt, t) /\
    (forall n, occupied_below (Trie.m_root t) n ->
       length (TrieNode.children n) = 26 /\
       forall c, In c (TrieNode.children n) -> TrieNode.data c = zero ->
         c = TrieNode.mk zero false []) /\
    (forall n, node_below (Trie.m_root t) n ->
       TrieNode.isWord n = true -> TrieNode.children n <> []).
Proof.
  intros Hws.
  destruct (inserts_fresh ws Hws) as (t & H & Hal & _).
  exists t. split; [exact H |]. split.
  - intros n Hn. pose proof (occupied_below_allocated _ _ Hal Hn) as An.
    split; [now apply allocated_length |].
    intros c Hin Hc. pose proof (allocated_slots n An) as F.
    rewrite Forall_forall in F. apply list_elem_of_In in Hin.
    destruct (F c Hin) as [-> | [Hd _]]; [reflexivity | contradiction].
  - intros n Hn Hf.
    destruct (node_below_allocated _ _ Hal Hn) as [-> | An]; [discriminate |].
    now apply allocated_nonempty.
Qed.

Lemma C10_allocation_invariant_witness :
  Forall (fun v => valid v = true) ["ab"; "ac"] /\
  exists t,
    Trie.inserts ["ab"; "ac"] Trie.Trie = (Ok tt, t) /\
    (forall n, occupied_below (Trie.m_root t) n ->
       length (TrieNode.children n) = 26 /\
       forall c, In c (TrieNode.children n) -> TrieNode.data c = zero ->
         c = TrieNode.mk zero false []) /\
    (forall n, node_below (Trie.m_root t) n ->
       TrieNode.isWord n = true -> TrieNode.children n <> []).
Proof.
  split; [repeat constructor |].
  apply (C10_allocation_invariant ["ab"; "ac"]). repeat constructor.
Defined.

(** ** Further properties of the code *)

(** *** The assertion of [insert] and the bounds of the vectors *)

Lemma not_islower_at c v :
  Trie.islower c = false -> length v = ALPHA_SIZE -> Trie.at_ v (Trie.slot c) = None.
Proof.
  intros Hc Hv. unfold Trie.islower in Hc. unfold Trie.at_, Trie.slot, Trie.char_value.
  cbv zeta.
  destruct (Z.ltb_spec (Z.of_nat (nat_of_ascii c)) 128) as [Hlt | Hbig].
  - destruct (Z.ltb_spec (Z.of_nat (nat_of_ascii c) - 97) 0) as [| Hge]; [reflexivity |].
    apply lookup_ge_None. rewrite Hv. unfold ALPHA_SIZE.
    apply andb_false_iff in Hc as [Hc | Hc]; apply Nat.leb_gt in Hc; lia.
  - pose proof (nat_ascii_bounded c) as Hb.
    destruct (Z.ltb_spec (Z.of_nat (nat_of_ascii c) - 256 - 97) 0); [reflexivity | lia].
Qed.

(** On an allocated node the loop of [insert] indexes out of bounds exactly
    on the strings that are not all lowercase. *)
Lemma insert_loop_undefined s :
  forall n, allocated n -> Trie.isLower s = false -> Trie.insert_loop n s = None.
Proof.
  induction s as [| c rest IH]; intros n Hn Hs; [discriminate |].
  simpl in Hs. destruct (Trie.islower c) eqn:Hc.
  - rewrite (insert_loop_cons _ _ _ Hc).
    destruct (allocated_lookup n c Hn Hc) as (x & -> & Hok).
    now rewrite (IH _ (visit_allocated _ _ _ Hok) Hs).
  - simpl. now rewrite (not_islower_at c _ Hc (allocated_length n Hn)).
Qed.

(** X1: the assertion of [insert] guards exactly the out-of-bounds accesses.
    On a trie built by valid insertions, the loop of [insert] (what runs when
    the assertion is compiled out) indexes a [children] vector out of bounds
    if and only if the string has a character outside [a..z]. *)
Theorem insert_loop_out_of_bounds_iff ws s :
  Forall (fun v => valid v = true) ws ->
  exists t,
    Trie.inserts ws Trie.Trie = (Ok tt, t) /\
    (Trie.insert_loop (Trie.m_root t) s = None <-> Trie.isLower s = false).
Proof.
  intros Hws. destruct (inserts_fresh ws Hws) as (t & H & Hal & _).
  exists t. split; [exact H |]. split.
  - intros Hn. destruct (Trie.isLower s) eqn:Hs; [| reflexivity].
    destruct (insert_loop_allocated s _ Hal Hs) as (n' & Hn' & _). congruence.
  - now apply insert_loop_undefined.
Qed.

Lemma insert_loop_out_of_bounds_iff_witness :
  Forall (fun v => valid v = true) ["man"; "many"] /\
  exists t,
    Trie.inserts ["man"; "many"] Trie.Trie = (Ok tt, t) /\
    (Trie.insert_loop (Trie.m_root t) "maN" = None <-> Trie.isLower "maN" = false).
Proof.
  split; [repeat constructor |].
  apply (insert_loop_out_of_bounds_iff ["man"; "many"] "maN"). repeat constructor.
Defined.

(** *** The test of the source *)

(** [testTrie] runs to its end: none of its assertions fails and no call
    indexes out of bounds. *)
Theorem testTrie_passes : testTrie = Ok tt.
Proof. vm_compute. reflexivity. Qed.

(** *** Slot/label agreement *)

Lemma letter_idx c : Trie.islower c = true -> letter (idx c) = c.
Proof.
  intros Hc. apply islower_range in Hc. unfold letter, idx.
  replace (97 + (nat_of_ascii c - 97)) with (nat_of_ascii c) by lia.
  apply ascii_nat_embedding.
Qed.

Lemma occupied_true c : occupied c = true <-> TrieNode.data c <> zero.
Proof.
  unfold occupied. rewrite negb_true_iff. split.
  - intros H E. rewrite E in H. discriminate.
  - intros H. apply Ascii.eqb_neq. exact H.
Qed.

Lemma occupied_false c : occupied c = false <-> TrieNode.data c = zero.
Proof. unfold occupied. rewrite negb_false_iff. apply Ascii.eqb_eq. Qed.

Lemma slot_ok_cases x :
  slot_ok x -> x = TrieNode.default \/ (occupied x = true /\ allocated x).
Proof. intros [-> | [Hd Hx]]; [now left | right]. split; [now apply occupied_true | exact Hx]. Qed.

Lemma labelled_lookup n i c :
  labelled n -> TrieNode.children n !! i = Some c -> occupied c = true ->
  TrieNode.data c = letter i /\ labelled c.
Proof. intros [n' H]. apply H. Qed.

Lemma labelled_no_occupied n :
  Forall (fun c => occupied c = false) (TrieNode.children n) -> labelled n.
Proof.
  intros F. constructor. intros i c Hc Ho.
  rewrite (Forall_lookup_1 _ _ _ _ F Hc) in Ho. discriminate.
Qed.

Lemma Trie_labelled : labelled (Trie.m_root Trie.Trie).
Proof. apply labelled_no_occupied. simpl. repeat constructor. Qed.

Lemma visit_labelled c e x :
  slot_ok x -> (occupied x = true -> labelled x) -> labelled (Trie.visit c e x).
Proof.
  intros Hok Hx. apply slot_ok_cases in Hok as [-> | [Ho Hal]].
  - apply labelled_no_occupied. rewrite visit_children.
    change (TrieNode.children TrieNode.default) with (@nil TrieNode.t). cbv iota.
    now apply Forall_replicate.
  - constructor. intros i d Hd Hod. rewrite visit_children in Hd.
    pose proof (allocated_nonempty x Hal) as Hne.
    destruct (TrieNode.children x) eqn:E; [congruence |].
    rewrite <- E in Hd. exact (labelled_lookup x i d (Hx Ho) Hd Hod).
Qed.

(** The loop of [insert] keeps the labels in agreement with the slots. *)
Lemma insert_loop_labelled s :
  forall n n', allocated n -> labelled n -> Trie.isLower s = true ->
  Trie.insert_loop n s = Some n' -> labelled n'.
Proof.
  induction s as [| c rest IH]; intros n n' Hn Hl Hs H.
  { injection H as <-. exact Hl. }
  apply isLower_cons in Hs as [Hc Hrest].
  rewrite (insert_loop_cons _ _ _ Hc) in H.
  destruct (allocated_lookup n c Hn Hc) as (x & Hx & Hok). rewrite Hx in H.
  destruct (Trie.insert_loop (Trie.visit c (Trie.atEnd rest) x) rest) as [x' |] eqn:Hx';
    [| discriminate].
  injection H as <-. constructor. intros i d Hd Hod. simpl in Hd.
  destruct (decide (idx c = i)) as [<- | Hne].
  - rewrite list_lookup_insert_eq in Hd by (eapply lookup_lt_Some; exact Hx).
    injection Hd as <-.
    destruct (insert_loop_frame _ _ _ Hx') as (Hdata & _).
    split.
    + rewrite Hdata, visit_data. symmetry. now apply letter_idx.
    + eapply IH; [apply visit_allocated; exact Hok | | exact Hrest | exact Hx'].
      apply visit_labelled; [exact Hok |].
      intros Ho. exact (proj2 (labelled_lookup n _ x Hl Hx Ho)).
  - rewrite list_lookup_insert_ne in Hd by exact Hne.
    exact (labelled_lookup n i d Hl Hd Hod).
Qed.

(** An invariant of nodes that the loop of [insert] keeps on allocated nodes
    holds after every chain of insertions of lowercase strings. *)
Lemma inserts_invariant (P : TrieNode.t -> Prop) :
  (forall s n n', allocated n -> P n -> Trie.isLower s = true ->
     Trie.insert_loop n s = Some n' -> P n') ->
  forall ws t, allocated (Trie.m_root t) -> P (Trie.m_root t) ->
  Forall (fun w => Trie.isLower w = true) ws ->
  exists t', Trie.inserts ws t = (Ok tt, t') /\
             allocated (Trie.m_root t') /\ P (Trie.m_root t').
Proof.
  intros HP. induction ws as [| v ws IH]; intros t Ht Pt Hws.
  - exists t. split; [reflexivity | split; assumption].
  - apply Forall_cons in Hws as [Hv Hws].
    destruct (insert_allocated v t Ht Hv) as (t1 & H1 & Hl1 & Hal1).
    destruct (IH t1 Hal1 (HP _ _ _ Ht Pt Hv Hl1) Hws) as (t' & H' & Hal' & Pt').
    exists t'. rewrite (inserts_cons _ _ _ _ H1). split; [exact H' | split; assumption].
Qed.

Lemma occupied_below_labelled r n :
  labelled r -> occupied_below r n -> labelled n.
Proof.
  intros Hr. induction 1 as [| n c _ IH Hin Hd]; [exact Hr |].
  apply list_elem_of_In, list_elem_of_lookup in Hin as [i Hi].
  exact (proj2 (labelled_lookup n i c IH Hi (proj2 (occupied_true c) Hd))).
Qed.

(** X2: slot/label agreement.  In a trie built by valid insertions, below the
    root and below every node reached through occupied slots, the node in
    an occupied slot [i] has [data == 'a' + i]. *)
Theorem slot_label_agreement ws :
  Forall (fun v => valid v = true) ws ->
  exists t,
    Trie.inserts ws Trie.Trie = (Ok tt, t) /\
    forall n, occupied_below (Trie.m_root t) n ->
    forall i c, TrieNode.children n !! i = Some c -> TrieNode.data c <> zero ->
      TrieNode.data c = ascii_of_nat (97 + i).
Proof.
  intros Hws.
  destruct (inserts_invariant labelled insert_loop_labelled ws Trie.Trie
              Trie_allocated Trie_labelled (Forall_valid_isLower _ Hws))
    as (t & H & _ & Hl).
  exists t. split; [exact H |].
  intros n Hn i c Hc Hd.
  pose proof (occupied_below_labelled _ _ Hl Hn) as Ln.
  exact (proj1 (labelled_lookup n i c Ln Hc (proj2 (occupied_true c) Hd))).
Qed.

Lemma slot_label_agreement_witness :
  Forall (fun v => valid v = true) ["ab"; "ac"] /\
  exists t,
    Trie.inserts ["ab"; "ac"] Trie.Trie = (Ok tt, t) /\
    forall n, occupied_below (Trie.m_root t) n ->
    forall i c, TrieNode.children n !! i = Some c -> TrieNode.data c <> zero ->
      TrieNode.data c = ascii_of_nat (97 + i).
Proof.
  split; [repeat constructor |].
  apply (slot_label_agreement ["ab"; "ac"]). repeat constructor.
Defined.

(** *** Induction on nodes, and the loops over the children *)

Lemma TrieNode_ind_children (P : TrieNode.t -> Prop) :
  (forall n, Forall P (TrieNode.children n) -> P n) -> forall n, P n.
Proof.
  intros H. fix IH 1. intros [d w cs]. apply H. simpl.
  induction cs as [| c cs IHcs]; constructor; [apply IH | exact IHcs].
Qed.

Lemma getWordsImpl_eq n st :
  Trie.getWordsImpl n st = getWordsImpl_children (TrieNode.children n) st.
Proof.
  destruct n as [d w cs]. simpl. revert st.
  induction cs as [| c cs IH]; intros st; [reflexivity |].
  simpl. destruct (Ascii.eqb (TrieNode.data c) zero); apply IH.
Qed.

Lemma count_words_eq n :
  count_words n =
  sum_list_with
    (fun c => if occupied c
              then (if TrieNode.isWord c then 1 else 0) + count_words c
              else 0) (TrieNode.children n).
Proof. destruct n. reflexivity. Qed.

Lemma count_nodes_eq n :
  count_nodes n =
  sum_list_with (fun c => if occupied c then 1 + count_nodes c else 0)
                (TrieNode.children n).
Proof. destruct n. reflexivity. Qed.

Lemma sum_list_with_insert {A} (f : A -> nat) l i x y :
  l !! i = Some x ->
  sum_list_with f (<[i:=y]> l) + f x = sum_list_with f l + f y.
Proof.
  revert i. induction l as [| a l IH]; intros [| i] H; try discriminate.
  - injection H as ->. simpl. lia.
  - simpl in H |- *. specialize (IH i H). lia.
Qed.

Lemma sum_list_with_zero {A} (f : A -> nat) l :
  Forall (fun a => f a = 0) l -> sum_list_with f l = 0.
Proof. induction 1 as [| a l Ha _ IH]; simpl; [reflexivity | lia]. Qed.

(** *** How many words [getWords] returns *)

(** Whatever the buffer holds, the traversal appends one word for each
    flagged node in an occupied slot. *)
Lemma getWordsImpl_length n :
  forall pre acc,
    length (snd (Trie.getWordsImpl n (pre, acc))) = length acc + count_words n.
Proof.
  induction n as [n IH] using TrieNode_ind_children. intros pre acc.
  rewrite getWordsImpl_eq, count_words_eq. revert pre acc.
  induction IH as [| c cs Hc _ IHcs]; intros pre acc; [simpl; lia |].
  simpl. unfold occupied at 1.
  destruct (Ascii.eqb (TrieNode.data c) zero); simpl; [apply IHcs |].
  destruct (Trie.getWordsImpl c _) as [pre' acc'] eqn:E.
  rewrite IHcs. apply (f_equal (fun st => length (snd st))) in E.
  rewrite Hc in E. simpl in E. rewrite <- E.
  destruct (TrieNode.isWord c); [rewrite length_app; simpl |]; lia.
Qed.

Lemma count_words_default : count_words TrieNode.default = 0.
Proof. reflexivity. Qed.

Lemma count_words_visit c e x : slot_ok x -> count_words (Trie.visit c e x) = count_words x.
Proof.
  intros Hok. rewrite !count_words_eq, visit_children.
  destruct Hok as [-> | [_ Hal]].
  - simpl. reflexivity.
  - pose proof (allocated_nonempty x Hal).
    destruct (TrieNode.children x); [congruence | reflexivity].
Qed.

(** The loop of [insert] adds one flagged node when the word was not found
    before, and none when it was. *)
Lemma insert_loop_count_words s :
  forall n n' b, allocated n -> Trie.isLower s = true -> s <> EmptyString ->
  Trie.insert_loop n s = Some n' ->
  exists m, Trie.isWord_loop n b s = Some m /\
            count_words n' = count_words n + (if m then 0 else 1).
Proof.
  induction s as [| c rest IH]; intros n n' b Hn Hs Hne H; [congruence |].
  apply isLower_cons in Hs as [Hc Hrest].
  rewrite (insert_loop_cons _ _ _ Hc) in H.
  destruct (allocated_lookup n c Hn Hc) as (x & Hx & Hok). rewrite Hx in H.
  destruct (Trie.insert_loop (Trie.visit c (Trie.atEnd rest) x) rest) as [x' |] eqn:Hx';
    [| discriminate].
  injection H as <-.
  rewrite (isWord_loop_cons n b c rest (allocated_nonempty n Hn) Hc), Hx.
  rewrite (count_words_eq n), (count_words_eq (TrieNode.set_children _ n)). simpl.
  pose proof (sum_list_with_insert
                (fun c => if occupied c
                          then (if TrieNode.isWord c then 1 else 0) + count_words c
                          else 0) _ _ _ x' Hx) as S.
  cbv beta in S.
  destruct (insert_loop_frame _ _ _ Hx') as (Hd & Hf & _).
  rewrite visit_data in Hd. rewrite visit_isWord in Hf.
  assert (Ho' : occupied x' = true).
  { apply occupied_true. rewrite Hd. now apply islower_nonzero. }
  rewrite Ho' in S.
  assert (Hwx : (if occupied x
                 then (if TrieNode.isWord x then 1 else 0) + count_words x else 0)
                = (if TrieNode.isWord x then 1 else 0) + count_words x).
  { destruct (slot_ok_cases x Hok) as [-> | [-> _]]; reflexivity. }
  rewrite Hwx in S.
  destruct rest as [| c' rest'].
  - change (Some (Trie.visit c true x) = Some x') in Hx'.
    assert (x' = Trie.visit c true x) as -> by congruence.
    exists (TrieNode.isWord x). split; [reflexivity |].
    rewrite count_words_visit, visit_isWord in S by exact Hok. cbn [orb] in S.
    destruct (TrieNode.isWord x); lia.
  - destruct (IH _ x' (TrieNode.isWord x) (visit_allocated _ _ _ Hok) Hrest
                ltac:(discriminate) Hx') as (m & Hm & Hcount).
    rewrite isWord_loop_visit in Hm by (assumption || discriminate).
    exists m. split; [exact Hm |].
    rewrite count_words_visit in Hcount by exact Hok. cbn [Trie.atEnd orb] in Hf.
    rewrite Hf, Hcount in S. destruct (TrieNode.isWord x), m; lia.
Qed.

Lemma inserts_count_words ws :
  forall t acc,
    allocated (Trie.m_root t) ->
    (forall w, valid w = true ->
       Trie.isWord_loop (Trie.m_root t) false w = Some (bool_decide (w ∈ acc))) ->
    count_words (Trie.m_root t) = length (remove_dups acc) ->
    Forall (fun v => valid v = true) ws ->
    exists t', Trie.inserts ws t = (Ok tt, t') /\
               count_words (Trie.m_root t') = length (remove_dups (reverse ws ++ acc)).
Proof.
  induction ws as [| v ws IH]; intros t acc Ht Hmem Hcount Hws.
  - exists t. split; [reflexivity | exact Hcount].
  - apply Forall_cons in Hws as [Hv Hws].
    pose proof (valid_isLower _ Hv) as Lv. pose proof (valid_nonempty _ Hv) as Nv.
    destruct (insert_allocated v t Ht Lv) as (t1 & H1 & Hl1 & Hal1).
    destruct (insert_loop_count_words v _ _ false Ht Lv Nv Hl1) as (m & Hm & Hc1).
    rewrite (Hmem v Hv) in Hm. injection Hm as <-.
    destruct (IH t1 (v :: acc) Hal1) as (t' & H' & Hc'); [| | exact Hws |].
    + intros w Hw. destruct (decide (w = v)) as [-> | Hne].
      * rewrite (insert_loop_isWord_same v _ _ false Ht Lv Nv Hl1).
        rewrite bool_decide_eq_true_2; [reflexivity | apply list_elem_of_here].
      * rewrite (insert_loop_isWord_other v _ _ false w Ht Lv (valid_isLower _ Hw)
                   (valid_nonempty _ Hw) Hne Hl1).
        rewrite (Hmem w Hw). f_equal. apply bool_decide_ext.
        rewrite elem_of_cons. tauto.
    + rewrite Hc1, Hcount. cbn [remove_dups].
      destruct (decide_rel elem_of v acc) as [Hin | Hnin].
      * rewrite bool_decide_eq_true_2 by exact Hin. lia.
      * rewrite bool_decide_eq_false_2 by exact Hnin. simpl. lia.
    + exists t'. rewrite (inserts_cons _ _ _ _ H1). split; [exact H' |].
      rewrite Hc', reverse_cons, <- app_assoc. reflexivity.
Qed.

(** X3: [getWords] returns as many words as there are distinct words
    inserted, also when the words themselves come out wrong; in particular it
    returns no word exactly when nothing was inserted. *)
Theorem getWords_length ws :
  Forall (fun v => valid v = true) ws ->
  exists t out,
    Trie.inserts ws Trie.Trie = (Ok tt, t) /\
    Trie.getWords t = (Ok out, t) /\
    length out = length (remove_dups ws) /\
    (out = [] <-> ws = []).
Proof.
  intros Hws.
  destruct (inserts_count_words ws Trie.Trie [] Trie_allocated) as (t & H & Hc);
    [| reflexivity | exact Hws |].
  { intros w Hw. now rewrite (isWord_loop_fresh w (valid_isLower _ Hw)). }
  exists t, (snd (Trie.getWordsImpl (Trie.m_root t) (EmptyString, []))).
  split; [exact H |]. split; [apply getWords_ok |].
  assert (L : length (snd (Trie.getWordsImpl (Trie.m_root t) (EmptyString, [])))
              = length (remove_dups ws)).
  { rewrite getWordsImpl_length, Hc, app_nil_r. simpl.
    apply Permutation_length, NoDup_Permutation; try apply NoDup_remove_dups.
    intros w. rewrite !elem_of_remove_dups. apply elem_of_reverse. }
  split; [exact L |]. split.
  - intros E. rewrite E in L. simpl in L.
    destruct ws as [| v ws']; [reflexivity |].
    assert (Hin : v ∈ remove_dups (v :: ws'))
      by (apply elem_of_remove_dups, list_elem_of_here).
    destruct (remove_dups (v :: ws')); [now apply not_elem_of_nil in Hin | discriminate].
  - intros ->. simpl in L. now apply nil_length_inv.
Qed.

Lemma getWords_length_witness :
  Forall (fun v => valid v = true) ["ab"; "ac"; "ab"] /\
  exists t out,
    Trie.inserts ["ab"; "ac"; "ab"] Trie.Trie = (Ok tt, t) /\
    Trie.getWords t = (Ok out, t) /\
    length out = length (remove_dups ["ab"; "ac"; "ab"]) /\
    (out = [] <-> ["ab"; "ac"; "ab"] = []).
Proof.
  split; [repeat constructor |].
  apply (getWords_length ["ab"; "ac"; "ab"]). repeat constructor.
Defined.

(** *** How many nodes [insert] allocates *)

Lemma count_nodes_visit c e x : slot_ok x -> count_nodes (Trie.visit c e x) = count_nodes x.
Proof.
  intros Hok. rewrite !count_nodes_eq, visit_children.
  destruct Hok as [-> | [_ Hal]].
  - simpl. reflexivity.
  - pose proof (allocated_nonempty x Hal).
    destruct (TrieNode.children x); [congruence | reflexivity].
Qed.

(** The loop of [insert] occupies at most one slot per letter, frees none,
    and occupies none when the word is already found. *)
Lemma insert_loop_count_nodes s :
  forall n n' b, allocated n -> Trie.isLower s = true ->
  Trie.insert_loop n s = Some n' ->
  count_nodes n <= count_nodes n' <= count_nodes n + String.length s /\
  (Trie.isWord_loop n b s = Some true -> s <> EmptyString ->
   count_nodes n' = count_nodes n).
Proof.
  induction s as [| c rest IH]; intros n n' b Hn Hs H.
  { injection H as <-. simpl. split; [lia | congruence]. }
  apply isLower_cons in Hs as [Hc Hrest].
  rewrite (insert_loop_cons _ _ _ Hc) in H.
  destruct (allocated_lookup n c Hn Hc) as (x & Hx & Hok). rewrite Hx in H.
  destruct (Trie.insert_loop (Trie.visit c (Trie.atEnd rest) x) rest) as [x' |] eqn:Hx';
    [| discriminate].
  injection H as <-.
  rewrite (isWord_loop_cons n b c rest (allocated_nonempty n Hn) Hc), Hx.
  rewrite (count_nodes_eq n), (count_nodes_eq (TrieNode.set_children _ n)).
  cbn [TrieNode.children TrieNode.set_children String.length].
  pose proof (sum_list_with_insert
                (fun c => if occupied c then 1 + count_nodes c else 0) _ _ _ x' Hx) as S.
  cbv beta in S.
  destruct (insert_loop_frame _ _ _ Hx') as (Hd & _ & _).
  rewrite visit_data in Hd.
  assert (Ho' : occupied x' = true).
  { apply occupied_true. rewrite Hd. now apply islower_nonzero. }
  rewrite Ho' in S.
  destruct (IH _ x' (TrieNode.isWord x) (visit_allocated _ _ _ Hok) Hrest Hx')
    as (Hb & Hsame).
  rewrite count_nodes_visit in Hb, Hsame by exact Hok.
  split.
  - destruct (slot_ok_cases x Hok) as [-> | [Ho _]].
    + change (occupied TrieNode.default) with false in S. cbv iota in S.
      change (count_nodes TrieNode.default) with 0 in Hb. lia.
    + rewrite Ho in S. lia.
  - intros Hm _.
    destruct (slot_ok_cases x Hok) as [-> | [Ho _]].
    { rewrite isWord_loop_default in Hm. discriminate. }
    rewrite Ho in S.
    destruct rest as [| c' rest'].
    + change (Some (Trie.visit c true x) = Some x') in Hx'.
      assert (x' = Trie.visit c true x) as -> by congruence.
      rewrite count_nodes_visit in S by exact Hok. lia.
    + rewrite Hsame in S; [lia | | discriminate].
      rewrite isWord_loop_visit; [exact Hm | exact Hok | discriminate | exact Hrest].
Qed.

Lemma occupied_path_cons n i p :
  occupied_path n (i :: p) =
  match TrieNode.children n !! i with
  | Some c => occupied c && occupied_path c p
  | None => false
  end.
Proof. reflexivity. Qed.

Lemma occupied_path_bare n p :
  Forall (fun c => occupied c = false) (TrieNode.children n) ->
  occupied_path n p = true <-> p = [].
Proof.
  intros F. destruct p as [| i p]; [easy |].
  rewrite occupied_path_cons. split; [| discriminate].
  destruct (TrieNode.children n !! i) as [c |] eqn:Hc; [| discriminate].
  now rewrite (Forall_lookup_1 _ _ _ _ F Hc).
Qed.

Lemma occupied_path_children n m p :
  TrieNode.children n = TrieNode.children m -> occupied_path n p = occupied_path m p.
Proof. intros E. destruct p as [| i p]; [reflexivity |]. now rewrite !occupied_path_cons, E. Qed.

(** Below a node just visited the occupied slots are those that were
    occupied below the slot before the visit. *)
Lemma occupied_path_visit c e x p :
  slot_ok x ->
  occupied_path (Trie.visit c e x) p = true <->
  p = [] \/ (occupied x = true /\ occupied_path x p = true).
Proof.
  intros Hok. destruct (slot_ok_cases x Hok) as [-> | [Ho Hal]].
  - rewrite occupied_path_bare.
    + split; [now left | intros [E | [E _]]; [exact E | discriminate]].
    + rewrite visit_children.
      change (TrieNode.children TrieNode.default) with (@nil TrieNode.t). cbv iota.
      now apply Forall_replicate.
  - rewrite (occupied_path_children (Trie.visit c e x) x).
    + split; [now right | intros [-> | [_ H]]; [reflexivity | exact H]].
    + rewrite visit_children. pose proof (allocated_nonempty x Hal).
      destruct (TrieNode.children x); [congruence | reflexivity].
Qed.

(** The loop of [insert] leaves occupied every slot that was, and occupies
    only slots on the path of the word. *)
Lemma insert_loop_occupied_path s :
  forall n n', allocated n -> Trie.isLower s = true ->
  Trie.insert_loop n s = Some n' ->
  forall p, occupied_path n' p = true <->
            (occupied_path n p = true \/
             exists k, map idx (list_ascii_of_string s) = (p ++ k)%list).
Proof.
  induction s as [| c rest IH]; intros n n' Hn Hs H p.
  { injection H as <-. split; [now left |].
    intros [Hp | (k & Hk)]; [exact Hp |].
    simpl in Hk. symmetry in Hk. apply app_eq_nil in Hk as [-> _]. reflexivity. }
  apply isLower_cons in Hs as [Hc Hrest].
  rewrite (insert_loop_cons _ _ _ Hc) in H.
  destruct (allocated_lookup n c Hn Hc) as (x & Hx & Hok). rewrite Hx in H.
  destruct (Trie.insert_loop (Trie.visit c (Trie.atEnd rest) x) rest) as [x' |] eqn:Hx';
    [| discriminate].
  injection H as <-.
  destruct p as [| j p']; [split; [now left | reflexivity] |].
  rewrite !occupied_path_cons. cbn [TrieNode.children TrieNode.set_children].
  cbn [list_ascii_of_string map].
  destruct (decide (idx c = j)) as [<- | Hne].
  - rewrite list_lookup_insert_eq by (eapply lookup_lt_Some; exact Hx). rewrite Hx.
    destruct (insert_loop_frame _ _ _ Hx') as (Hd & _ & _). rewrite visit_data in Hd.
    assert (Ho' : occupied x' = true).
    { apply occupied_true. rewrite Hd. now apply islower_nonzero. }
    rewrite Ho'. cbn [andb].
    rewrite (IH _ _ (visit_allocated _ _ _ Hok) Hrest Hx' p').
    rewrite (occupied_path_visit c _ x p' Hok), andb_true_iff.
    split.
    + intros [[-> | Hp] | (k & Hk)].
      * right. exists (map idx (list_ascii_of_string rest)). reflexivity.
      * now left.
      * right. exists k. simpl. now rewrite Hk.
    + intros [Hp | (k & Hk)]; [left; now right |].
      right. exists k. simpl in Hk. now injection Hk.
  - rewrite list_lookup_insert_ne by exact Hne.
    split; [now left |].
    intros [Hp | (k & Hk)]; [exact Hp |].
    simpl in Hk. injection Hk as Hk _. congruence.
Qed.

(** The loop of [insert] on a word that the loop of [isWord] already finds
    changes nothing at all. *)
Lemma insert_loop_stored s :
  forall n b, allocated n -> labelled n -> Trie.isLower s = true ->
  s <> EmptyString -> Trie.isWord_loop n b s = Some true ->
  Trie.insert_loop n s = Some n.
Proof.
  induction s as [| c rest IH]; intros n b Hn Hl Hs Hne Hm; [congruence |].
  apply isLower_cons in Hs as [Hc Hrest].
  rewrite (isWord_loop_cons n b c rest (allocated_nonempty n Hn) Hc) in Hm.
  rewrite (insert_loop_cons _ _ _ Hc).
  destruct (allocated_lookup n c Hn Hc) as (x & Hx & Hok). rewrite Hx in Hm |- *.
  destruct (slot_ok_cases x Hok) as [-> | [Ho Hax]].
  { rewrite isWord_loop_default in Hm. discriminate. }
  destruct (labelled_lookup n _ x Hl Hx Ho) as [Hdx Hlx].
  rewrite (letter_idx c Hc) in Hdx.
  assert (Hv : Trie.insert_loop (Trie.visit c (Trie.atEnd rest) x) rest = Some x).
  { rewrite (visit_visited c _ x (allocated_nonempty x Hax) Hdx).
    destruct rest as [| c' rest'].
    - simpl in Hm. injection Hm as Hf. simpl.
      destruct x as [d w cs]. simpl in Hf. now subst w.
    - cbn [Trie.atEnd]. apply (IH x (TrieNode.isWord x)); try assumption. discriminate. }
  rewrite Hv, (list_insert_id _ _ _ Hx). now destruct n.
Qed.

(** X4: on a trie built by valid insertions, [insert(w)] of a valid word
    frees no slot and occupies only slots on the path of [w]: the slots
    occupied afterwards are those occupied before and those the letters of
    [w] lead through.  At most [w.size()] slots are newly occupied; and when
    [w] is already a word of the trie, the trie is left exactly as it
    was. *)
Theorem insert_allocates_at_most_size ws w :
  Forall (fun v => valid v = true) ws -> valid w = true ->
  exists t t',
    Trie.inserts ws Trie.Trie = (Ok tt, t) /\
    Trie.insert w t = (Ok t', t') /\
    (forall p, occupied_path (Trie.m_root t') p = true <->
               (occupied_path (Trie.m_root t) p = true \/
                exists k, map idx (list_ascii_of_string w) = (p ++ k)%list)) /\
    count_nodes (Trie.m_root t) <= count_nodes (Trie.m_root t')
      <= count_nodes (Trie.m_root t) + String.length w /\
    (In w ws -> t' = t).
Proof.
  intros Hws Hw.
  pose proof (Forall_valid_isLower _ Hws) as Lws.
  destruct (inserts_spec ws Trie.Trie Trie_allocated Lws)
    as (t & H & Hal & _ & _ & Hmem).
  destruct (inserts_invariant labelled insert_loop_labelled ws Trie.Trie
              Trie_allocated Trie_labelled Lws) as (t1 & H1 & _ & Hlab).
  assert (t1 = t) as -> by congruence.
  pose proof (valid_isLower _ Hw) as Lw. pose proof (valid_nonempty _ Hw) as Nw.
  destruct (insert_allocated w t Hal Lw) as (t' & H' & Hl & _).
  destruct (insert_loop_count_nodes w _ _ false Hal Lw Hl) as (Hb & _).
  exists t, t'. split; [exact H |]. split; [exact H' |].
  split; [exact (insert_loop_occupied_path w _ _ Hal Lw Hl) |].
  split; [exact Hb |].
  intros Hin.
  assert (Hm : Trie.isWord_loop (Trie.m_root t) false w = Some true).
  { rewrite (Hmem w Lw Nw). apply list_elem_of_In in Hin.
    now destruct (decide (w ∈ ws)). }
  rewrite (insert_loop_stored w _ false Hal Hlab Lw Nw Hm) in Hl.
  injection Hl as Hl. destruct t, t'. simpl in Hl. now subst.
Qed.

Lemma insert_allocates_at_most_size_witness :
  Forall (fun v => valid v = true) ["man"] /\ valid "many" = true /\
  exists t t',
    Trie.inserts ["man"] Trie.Trie = (Ok tt, t) /\
    Trie.insert "many" t = (Ok t', t') /\
    (forall p, occupied_path (Trie.m_root t') p = true <->
               (occupied_path (Trie.m_root t) p = true \/
                exists k, map idx (list_ascii_of_string "many") = (p ++ k)%list)) /\
    count_nodes (Trie.m_root t) <= count_nodes (Trie.m_root t')
      <= count_nodes (Trie.m_root t) + String.length "many" /\
    (In "many" ["man"] -> t' = t).
Proof.
  split; [repeat constructor |]. split; [reflexivity |].
  apply (insert_allocates_at_most_size ["man"] "many"); [repeat constructor | reflexivity].
Defined.

(** *** The path buffer of [getWordsImpl] *)

Lemma getWordsImpl_children_skip cs st :
  Forall (fun c => occupied c = false) cs -> getWordsImpl_children cs st = st.
Proof.
  induction 1 as [| c cs Hc _ IH]; [reflexivity |].
  simpl. apply occupied_false in Hc. rewrite Hc. simpl. exact IH.
Qed.

(** The buffer comes back empty from every node that has an occupied slot:
    the traversal below it ends on a leaf, where the buffer is cleared. *)
Lemma getWordsImpl_buffer n :
  forall pre acc,
    fst (Trie.getWordsImpl n (pre, acc)) =
    if TrieNode.hasChildren n then EmptyString else pre.
Proof.
  induction n as [n IH] using TrieNode_ind_children. intros pre acc.
  rewrite getWordsImpl_eq. unfold TrieNode.hasChildren. revert pre acc.
  induction IH as [| c cs Hc _ IHcs]; intros pre acc; [reflexivity |].
  simpl. destruct (Ascii.eqb (TrieNode.data c) zero); simpl; [apply IHcs |].
  destruct (Trie.getWordsImpl c _) as [pre' acc'] eqn:E.
  apply (f_equal fst) in E. rewrite Hc in E. simpl in E.
  assert (pre' = EmptyString) as ->.
  { rewrite <- E. now destruct (TrieNode.hasChildren c). }
  rewrite IHcs. now destruct (existsb _ cs).
Qed.

Lemma words_from_eq n pre :
  words_from n pre =
  concat (map (fun c =>
                 if occupied c then
                   ((if TrieNode.isWord c
                     then [pre +:+ String (TrieNode.data c) EmptyString] else [])
                    ++ words_from c (pre +:+ String (TrieNode.data c) EmptyString))%list
                 else []) (TrieNode.children n)).
Proof. destruct n. reflexivity. Qed.

Lemma words_from_no_children n pre :
  TrieNode.hasChildren n = false -> words_from n pre = [].
Proof.
  unfold TrieNode.hasChildren. rewrite words_from_eq.
  induction (TrieNode.children n) as [| c cs IH]; [reflexivity |].
  simpl. intros H. apply orb_false_iff in H as [Hc Hcs].
  unfold occupied. rewrite Hc. simpl. now apply IH.
Qed.

Lemma unbranched_eq n :
  unbranched n =
  (length (filter (fun c => occupied c = true) (TrieNode.children n)) <=? 1)%nat
  && forallb unbranched (TrieNode.children n).
Proof. destruct n as [d w cs]. simpl. f_equal. Qed.

Lemma filter_occupied_nil cs :
  length (filter (fun c => occupied c = true) cs) = 0 ->
  Forall (fun c => occupied c = false) cs.
Proof.
  induction cs as [| c cs IH]; intros H; [constructor |].
  destruct (occupied c) eqn:Hc.
  - rewrite filter_cons_True in H by exact Hc. discriminate.
  - rewrite filter_cons_False in H by congruence. constructor; auto.
Qed.

(** What one occupied child contributes, given what is known of the call on
    it. *)
Lemma getWordsImpl_child c pre acc :
  (forall pre acc,
     snd (Trie.getWordsImpl c (pre, acc)) = (acc ++ words_from c pre)%list) ->
  let s := pre +:+ String (TrieNode.data c) EmptyString in
  Trie.getWordsImpl c
    (if negb (TrieNode.hasChildren c) then EmptyString else s,
     if TrieNode.isWord c then (acc ++ [s])%list else acc)
  = (EmptyString,
     (acc ++ (if TrieNode.isWord c then [s] else []) ++ words_from c s)%list).
Proof.
  intros Hc s.
  destruct (Trie.getWordsImpl c _) as [pre' acc'] eqn:E.
  pose proof (f_equal fst E) as E1. pose proof (f_equal snd E) as E2.
  rewrite getWordsImpl_buffer in E1. rewrite Hc in E2. simpl in E1, E2.
  f_equal.
  - rewrite <- E1. now destruct (TrieNode.hasChildren c).
  - rewrite <- E2.
    assert (words_from c (if negb (TrieNode.hasChildren c) then EmptyString else s)
            = words_from c s) as ->.
    { destruct (TrieNode.hasChildren c) eqn:Hh; [reflexivity |].
      simpl. now rewrite !words_from_no_children. }
    destruct (TrieNode.isWord c); [now rewrite <- app_assoc | reflexivity].
Qed.

(** Below a node where no node has two occupied slots, the traversal
    returns the scoped enumeration. *)
Lemma getWordsImpl_unbranched n :
  unbranched n = true ->
  forall pre acc,
    snd (Trie.getWordsImpl n (pre, acc)) = (acc ++ words_from n pre)%list.
Proof.
  induction n as [n IH] using TrieNode_ind_children. intros Hu pre acc.
  rewrite unbranched_eq in Hu. apply andb_true_iff in Hu as [Hone Hall].
  apply Nat.leb_le in Hone.
  rewrite getWordsImpl_eq, words_from_eq. revert Hone Hall acc.
  induction IH as [| c cs Hc _ IHcs]; intros Hone Hall acc.
  { simpl. now rewrite app_nil_r. }
  simpl in Hall. apply andb_true_iff in Hall as [Huc Hall].
  simpl. unfold occupied at 1.
  destruct (Ascii.eqb (TrieNode.data c) zero) eqn:Hd; simpl.
  - apply IHcs; [| exact Hall].
    rewrite filter_cons_False in Hone; [exact Hone |].
    unfold occupied. rewrite Hd. discriminate.
  - rewrite filter_cons_True in Hone by (unfold occupied; now rewrite Hd).
    simpl in Hone.
    assert (Hnone : Forall (fun c => occupied c = false) cs)
      by (apply filter_occupied_nil; lia).
    rewrite (getWordsImpl_child c pre acc (Hc Huc)).
    rewrite getWordsImpl_children_skip by exact Hnone. simpl.
    assert (concat (map (fun c0 =>
              if occupied c0 then
                ((if TrieNode.isWord c0
                  then [pre +:+ String (TrieNode.data c0) EmptyString] else [])
                 ++ words_from c0 (pre +:+ String (TrieNode.data c0) EmptyString))%list
              else []) cs) = []) as ->.
    { clear -Hnone. induction Hnone as [| c0 cs H0 _ IH]; [reflexivity |].
      simpl. now rewrite H0, IH. }
    now rewrite app_nil_r.
Qed.

(** From the root the buffer starts empty, so the children of the root may
    be any number. *)
Lemma getWordsImpl_children_chains cs :
  forallb unbranched cs = true ->
  forall acc,
    getWordsImpl_children cs (EmptyString, acc) =
    (EmptyString,
     (acc ++ concat (map (fun c =>
                if occupied c then
                  ((if TrieNode.isWord c
                    then [String (TrieNode.data c) EmptyString] else [])
                   ++ words_from c (String (TrieNode.data c) EmptyString))%list
                else []) cs))%list).
Proof.
  induction cs as [| c cs IH]; intros Hall acc.
  { simpl. now rewrite app_nil_r. }
  simpl in Hall. apply andb_true_iff in Hall as [Huc Hall].
  simpl. unfold occupied at 1.
  destruct (Ascii.eqb (TrieNode.data c) zero) eqn:Hd; simpl; [now apply IH |].
  pose proof (getWordsImpl_child c EmptyString acc (getWordsImpl_unbranched c Huc)) as E.
  simpl in E. rewrite E, (IH Hall). now rewrite <- !app_assoc.
Qed.

(** X5: on every trie in which no node below the root has two occupied
    slots, [getWords] returns the enumeration with the buffer scoped to the
    recursion: every flagged node in an occupied slot gives the letters on
    the path to it, in slot order. *)
Theorem getWords_chains t :
  chains t = true ->
  Trie.getWords t = (Ok (words_from (Trie.m_root t) EmptyString), t).
Proof.
  intros Hc. rewrite getWords_ok. do 2 f_equal.
  rewrite getWordsImpl_eq, words_from_eq.
  now rewrite (getWordsImpl_children_chains _ Hc).
Qed.

Lemma getWords_chains_witness :
  chains (snd (Trie.inserts ["man"; "many"; "quick"] Trie.Trie)) = true /\
  Trie.getWords (snd (Trie.inserts ["man"; "many"; "quick"] Trie.Trie)) =
  (Ok (words_from (Trie.m_root (snd (Trie.inserts ["man"; "many"; "quick"] Trie.Trie)))
         EmptyString),
   snd (Trie.inserts ["man"; "many"; "quick"] Trie.Trie)).
Proof.
  split; [vm_compute; reflexivity |].
  apply (getWords_chains (snd (Trie.inserts ["man"; "many"; "quick"] Trie.Trie))).
  vm_compute. reflexivity.
Defined.

(** *** Letters and the lexicographic order *)

Lemma letter_islower i :
  i < ALPHA_SIZE -> Trie.islower (letter i) = true /\ idx (letter i) = i.
Proof.
  unfold ALPHA_SIZE, Trie.islower, idx, letter. intros Hi.
  rewrite nat_ascii_embedding by lia. split; [| lia].
  apply andb_true_iff. split; apply Nat.leb_le; lia.
Qed.

Lemma ascii_compare_lt c d :
  nat_of_ascii c < nat_of_ascii d -> Ascii.compare c d = Lt.
Proof.
  unfold Ascii.compare, nat_of_ascii. intros H. apply N.compare_lt_iff. lia.
Qed.

Lemma ascii_compare_refl c : Ascii.compare c c = Eq.
Proof. unfold Ascii.compare. apply N.compare_refl. Qed.

Lemma ltb_cons_same d a b : String.ltb (String d a) (String d b) = String.ltb a b.
Proof. unfold String.ltb. simpl. now rewrite ascii_compare_refl. Qed.

Lemma ltb_letters i j a b :
  i < j < ALPHA_SIZE -> String.ltb (String (letter i) a) (String (letter j) b) = true.
Proof.
  unfold ALPHA_SIZE. intros H. unfold String.ltb. cbn [String.compare].
  rewrite ascii_compare_lt; [reflexivity |].
  unfold letter. rewrite !nat_ascii_embedding by lia. lia.
Qed.

Lemma strictly_increasing_app l1 l2 :
  strictly_increasing l1 = true -> strictly_increasing l2 = true ->
  (forall a b, In a l1 -> In b l2 -> String.ltb a b = true) ->
  strictly_increasing (l1 ++ l2) = true.
Proof.
  induction l1 as [| a l1 IH]; intros H1 H2 H; [exact H2 |].
  destruct l1 as [| a' l1].
  - simpl. destruct l2 as [| b l2]; [reflexivity |].
    apply andb_true_iff. split; [apply H; now left | exact H2].
  - change (String.ltb a a' && strictly_increasing (a' :: l1) = true) in H1.
    apply andb_true_iff in H1 as [Haa H1].
    change (String.ltb a a' && strictly_increasing ((a' :: l1) ++ l2) = true).
    apply andb_true_iff. split; [exact Haa |].
    apply IH; [exact H1 | exact H2 |].
    intros x y Hx Hy. apply H; [now right | exact Hy].
Qed.

Lemma strictly_increasing_map_cons d l :
  strictly_increasing l = true -> strictly_increasing (map (String d) l) = true.
Proof.
  induction l as [| a l IH]; intros H; [reflexivity |].
  destruct l as [| a' l]; [reflexivity |].
  change (String.ltb a a' && strictly_increasing (a' :: l) = true) in H.
  apply andb_true_iff in H as [Haa H].
  change (String.ltb (String d a) (String d a')
          && strictly_increasing (map (String d) (a' :: l)) = true).
  apply andb_true_iff. split; [now rewrite ltb_cons_same | now apply IH].
Qed.

(** *** The scoped enumeration on the tries that [insert] builds *)

Lemma append_assoc_string a b c : (a +:+ b) +:+ c = a +:+ (b +:+ c).
Proof.
  induction a as [| x a IH]; [reflexivity |].
  change (String x ((a +:+ b) +:+ c) = String x (a +:+ (b +:+ c))).
  f_equal. exact IH.
Qed.

Lemma words_from_slots n pre :
  words_from n pre = concat (map (slot_words pre) (TrieNode.children n)).
Proof. destruct n. reflexivity. Qed.

Lemma words_from_prefix n :
  forall pre, words_from n pre = map (String.append pre) (words_from n EmptyString).
Proof.
  induction n as [n IH] using TrieNode_ind_children. intros pre.
  rewrite !words_from_slots.
  induction IH as [| c cs Hc _ IHcs]; [reflexivity |].
  simpl. rewrite map_app, IHcs. f_equal.
  unfold slot_words. destruct (occupied c); [| reflexivity]. simpl.
  rewrite map_app. f_equal.
  - destruct (TrieNode.isWord c); reflexivity.
  - change (EmptyString +:+ String (TrieNode.data c) EmptyString)
      with (String (TrieNode.data c) EmptyString).
    rewrite (Hc (pre +:+ String (TrieNode.data c) EmptyString)).
    rewrite (Hc (String (TrieNode.data c) EmptyString)), map_map.
    apply map_ext. intros q. apply append_assoc_string.
Qed.

Lemma slot_words_occupied c :
  occupied c = true ->
  slot_words EmptyString c =
  ((if TrieNode.isWord c then [String (TrieNode.data c) EmptyString] else [])
   ++ map (String (TrieNode.data c)) (words_from c EmptyString))%list.
Proof.
  intros Ho. unfold slot_words. rewrite Ho. simpl. f_equal.
  now rewrite words_from_prefix.
Qed.

Lemma allocated_child n i c :
  allocated n -> TrieNode.children n !! i = Some c -> occupied c = true ->
  allocated c /\ i < ALPHA_SIZE.
Proof.
  intros Hn Hc Ho. split.
  - pose proof (Forall_lookup_1 _ _ _ _ (allocated_slots n Hn) Hc) as Hok.
    destruct (slot_ok_cases c Hok) as [-> | [_ Hal]]; [discriminate | exact Hal].
  - rewrite <- (allocated_length n Hn). eapply lookup_lt_Some. exact Hc.
Qed.

(** The words of the scoped enumeration are lowercase, non-empty, and found
    by the loop of [isWord]. *)
Lemma words_from_sound n :
  allocated n -> labelled n ->
  forall w, In w (words_from n EmptyString) ->
    Trie.isLower w = true /\ w <> EmptyString /\
    forall b, Trie.isWord_loop n b w = Some true.
Proof.
  induction n as [n IH] using TrieNode_ind_children. intros Hn Hl w Hw.
  rewrite words_from_slots in Hw. apply in_concat in Hw as (blk & Hblk & Hw).
  apply in_map_iff in Hblk as (c & <- & Hc).
  destruct (occupied c) eqn:Ho; [| unfold slot_words in Hw; now rewrite Ho in Hw].
  rewrite (slot_words_occupied c Ho) in Hw.
  rewrite Forall_forall in IH.
  pose proof (IH c (proj2 (list_elem_of_In _ _) Hc)) as IHc.
  apply list_elem_of_In, list_elem_of_lookup in Hc as [i Hi].
  destruct (allocated_child n i c Hn Hi Ho) as [Hac Hi26].
  destruct (labelled_lookup n i c Hl Hi Ho) as [Hd Hlc].
  destruct (letter_islower i Hi26) as [Hlow Hidx].
  assert (Hstep : forall b q,
             Trie.isWord_loop n b (String (TrieNode.data c) q)
             = Trie.isWord_loop c (TrieNode.isWord c) q).
  { intros b q. rewrite Hd.
    rewrite (isWord_loop_cons n b _ q (allocated_nonempty n Hn) Hlow).
    now rewrite Hidx, Hi. }
  apply in_app_or in Hw as [Hw | Hw].
  - destruct (TrieNode.isWord c) eqn:Hf; [| destruct Hw].
    destruct Hw as [<- | []].
    split; [simpl; now rewrite Hd, Hlow |]. split; [discriminate |].
    intros b. rewrite Hstep. reflexivity.
  - apply in_map_iff in Hw as (q & <- & Hq).
    destruct (IHc Hac Hlc q Hq) as (Lq & Nq & Hm).
    split; [simpl; now rewrite Hd, Hlow, Lq |]. split; [discriminate |].
    intros b. rewrite Hstep. apply Hm.
Qed.

(** Every word the loop of [isWord] finds is in the scoped enumeration. *)
Lemma words_from_complete w :
  forall n b, allocated n -> labelled n ->
  Trie.isLower w = true -> w <> EmptyString ->
  Trie.isWord_loop n b w = Some true -> In w (words_from n EmptyString).
Proof.
  induction w as [| d q IH]; intros n b Hn Hl Hw Hne Hm; [congruence |].
  apply isLower_cons in Hw as [Hd Hq].
  rewrite (isWord_loop_cons n b d q (allocated_nonempty n Hn) Hd) in Hm.
  destruct (allocated_lookup n d Hn Hd) as (x & Hx & Hok). rewrite Hx in Hm.
  destruct (slot_ok_cases x Hok) as [-> | [Ho Hax]].
  { rewrite isWord_loop_default in Hm. discriminate. }
  destruct (labelled_lookup n _ x Hl Hx Ho) as [Hdx Hlx].
  rewrite (letter_idx d Hd) in Hdx.
  rewrite words_from_slots. apply in_concat.
  exists (slot_words EmptyString x). split.
  - apply in_map. apply list_elem_of_In, list_elem_of_lookup. now exists (idx d).
  - rewrite (slot_words_occupied x Ho), Hdx. apply in_or_app.
    destruct q as [| e q'].
    + left. simpl in Hm. injection Hm as ->. now left.
    + right. apply in_map. apply (IH x (TrieNode.isWord x)); try assumption.
      discriminate.
Qed.

(** The contributions of the slots from position [k] on are in strictly
    increasing order, each word starting with the letter of its slot. *)
Lemma slot_words_sorted cs :
  forall k,
    (forall i c, cs !! i = Some c -> occupied c = true ->
       TrieNode.data c = letter (k + i) /\ k + i < ALPHA_SIZE /\
       strictly_increasing (words_from c EmptyString) = true /\
       (forall q, In q (words_from c EmptyString) -> q <> EmptyString)) ->
    strictly_increasing (concat (map (slot_words EmptyString) cs)) = true /\
    (forall w, In w (concat (map (slot_words EmptyString) cs)) ->
       exists j q, w = String (letter j) q /\ k <= j < ALPHA_SIZE).
Proof.
  induction cs as [| c cs IH]; intros k H.
  { split; [reflexivity | intros w []]. }
  destruct (IH (S k)) as [Hs Hstart].
  { intros i c' Hi Ho. replace (S k + i) with (k + S i) by lia. now apply (H (S i)). }
  simpl. destruct (occupied c) eqn:Ho.
  2:{ unfold slot_words at 1 3. rewrite Ho. simpl. split; [exact Hs |].
      intros w Hw. destruct (Hstart w Hw) as (j & q & -> & Hj).
      exists j, q. split; [reflexivity | lia]. }
  destruct (H 0 c eq_refl Ho) as (Hd & Hk & Hsc & Hnc).
  rewrite Nat.add_0_r in Hd, Hk.
  assert (Hblk : forall w, In w (slot_words EmptyString c) ->
                           exists q, w = String (letter k) q).
  { intros w Hw. rewrite (slot_words_occupied c Ho), Hd in Hw.
    apply in_app_or in Hw as [Hw | Hw].
    - destruct (TrieNode.isWord c); [| destruct Hw].
      destruct Hw as [<- | []]. now eexists.
    - apply in_map_iff in Hw as (q & <- & _). now eexists. }
  split.
  - apply strictly_increasing_app; [| exact Hs |].
    + rewrite (slot_words_occupied c Ho).
      apply strictly_increasing_app.
      * now destruct (TrieNode.isWord c).
      * now apply strictly_increasing_map_cons.
      * intros a b Ha Hb. destruct (TrieNode.isWord c); [| destruct Ha].
        destruct Ha as [<- | []].
        apply in_map_iff in Hb as (q & <- & Hq).
        rewrite ltb_cons_same. specialize (Hnc q Hq).
        destruct q; [congruence | reflexivity].
    + intros a b Ha Hb.
      destruct (Hblk a Ha) as (qa & ->).
      destruct (Hstart b Hb) as (j & qb & -> & Hj).
      apply ltb_letters. lia.
  - intros w Hw. apply in_app_or in Hw as [Hw | Hw].
    + destruct (Hblk w Hw) as (q & ->). exists k, q. split; [reflexivity | lia].
    + destruct (Hstart w Hw) as (j & q & -> & Hj).
      exists j, q. split; [reflexivity | lia].
Qed.

(** On the tries that [insert] builds the scoped enumeration is in strictly
    increasing order. *)
Lemma words_from_sorted n :
  allocated n -> labelled n ->
  strictly_increasing (words_from n EmptyString) = true /\
  (forall q, In q (words_from n EmptyString) -> q <> EmptyString).
Proof.
  induction n as [n IH] using TrieNode_ind_children. intros Hn Hl.
  rewrite words_from_slots. rewrite Forall_forall in IH.
  destruct (slot_words_sorted (TrieNode.children n) 0) as [Hs Hstart].
  { intros i c Hi Ho. simpl.
    destruct (allocated_child n i c Hn Hi Ho) as [Hac Hi26].
    destruct (labelled_lookup n i c Hl Hi Ho) as [Hd Hlc].
    split; [exact Hd |]. split; [exact Hi26 |].
    apply IH; [| exact Hac | exact Hlc].
    apply list_elem_of_lookup. now exists i. }
  split; [exact Hs |].
  intros q Hq. destruct (Hstart q Hq) as (j & q' & -> & _). discriminate.
Qed.

(** *** Words that form chains of prefixes *)

Lemma covered_mono W n :
  covered W n -> forall W' : string -> Prop, (forall w, W w -> W' w) -> covered W' n.
Proof.
  induction 1 as [W n Hex _ IH]. intros W' HW. constructor.
  - intros i c Hc Ho. destruct (Hex i c Hc Ho) as [w Hw]. exists w. now apply HW.
  - intros i c Hc Ho. apply (IH i c Hc Ho). intros w. apply HW.
Qed.

Lemma covered_children W n m :
  TrieNode.children m = TrieNode.children n -> covered W n -> covered W m.
Proof.
  intros E H. inversion H as [W0 n0 Hex Hrec]; subst.
  constructor; rewrite E; assumption.
Qed.

Lemma covered_no_occupied W n :
  Forall (fun c => occupied c = false) (TrieNode.children n) -> covered W n.
Proof.
  intros F. constructor; intros i c Hc Ho;
    rewrite (Forall_lookup_1 _ _ _ _ F Hc) in Ho; discriminate.
Qed.

Lemma visit_covered W c e x :
  slot_ok x -> (occupied x = true -> covered W x) -> covered W (Trie.visit c e x).
Proof.
  intros Hok Hx. apply slot_ok_cases in Hok as [-> | [Ho Hal]].
  - apply covered_no_occupied. rewrite visit_children.
    change (TrieNode.children TrieNode.default) with (@nil TrieNode.t). cbv iota.
    now apply Forall_replicate.
  - apply (covered_children W x); [| now apply Hx].
    rewrite visit_children. pose proof (allocated_nonempty x Hal).
    destruct (TrieNode.children x); [congruence | reflexivity].
Qed.

(** The loop of [insert] occupies slots on the path of the word it inserts
    only. *)
Lemma insert_loop_covered s :
  forall n n' (W : string -> Prop), allocated n -> covered W n ->
  Trie.isLower s = true -> Trie.insert_loop n s = Some n' ->
  covered (fun w => W w \/ w = s) n'.
Proof.
  induction s as [| c rest IH]; intros n n' W Hn Hcov Hs H.
  { injection H as <-. apply (covered_mono W n Hcov). now left. }
  apply isLower_cons in Hs as [Hc Hrest].
  rewrite (insert_loop_cons _ _ _ Hc) in H.
  destruct (allocated_lookup n c Hn Hc) as (x & Hx & Hok). rewrite Hx in H.
  destruct (Trie.insert_loop (Trie.visit c (Trie.atEnd rest) x) rest) as [x' |] eqn:Hx';
    [| discriminate].
  injection H as <-.
  inversion Hcov as [W0 n0 Hex Hrec]; subst.
  assert (Hnew : covered (fun w => W (String c w) \/ w = rest) x').
  { eapply IH; [apply visit_allocated; exact Hok | | exact Hrest | exact Hx'].
    apply visit_covered; [exact Hok |].
    intros Ho. specialize (Hrec _ _ Hx Ho).
    now rewrite (letter_idx c Hc) in Hrec. }
  constructor; intros i d Hd Hod; simpl in Hd.
  - destruct (decide (idx c = i)) as [<- | Hne].
    + exists rest. right. now rewrite (letter_idx c Hc).
    + rewrite list_lookup_insert_ne in Hd by exact Hne.
      destruct (Hex i d Hd Hod) as [w Hw]. exists w. now left.
  - destruct (decide (idx c = i)) as [<- | Hne].
    + rewrite list_lookup_insert_eq in Hd by (eapply lookup_lt_Some; exact Hx).
      injection Hd as <-. rewrite (letter_idx c Hc).
      apply (covered_mono _ _ Hnew). intros w [Hw | ->]; [now left | now right].
    + rewrite list_lookup_insert_ne in Hd by exact Hne.
      apply (covered_mono _ _ (Hrec i d Hd Hod)). intros w Hw. now left.
Qed.

Lemma inserts_covered (ws0 : list string) ws :
  forall t, (forall w, In w ws -> In w ws0) ->
  allocated (Trie.m_root t) -> covered (fun w => In w ws0) (Trie.m_root t) ->
  Forall (fun w => Trie.isLower w = true) ws ->
  exists t', Trie.inserts ws t = (Ok tt, t') /\
             covered (fun w => In w ws0) (Trie.m_root t').
Proof.
  induction ws as [| v ws IH]; intros t Hsub Ht Hcov Hws.
  - exists t. split; [reflexivity | exact Hcov].
  - apply Forall_cons in Hws as [Hv Hws].
    destruct (insert_allocated v t Ht Hv) as (t1 & H1 & Hl1 & Hal1).
    destruct (IH t1) as (t' & H' & Hcov'); [| exact Hal1 | | exact Hws |].
    + intros w Hw. apply Hsub. now right.
    + apply (covered_mono _ _ (insert_loop_covered v _ _ _ Ht Hcov Hv Hl1)).
      intros w [Hw | ->]; [exact Hw | apply Hsub; now left].
    + exists t'. rewrite (inserts_cons _ _ _ _ H1). split; assumption.
Qed.

Lemma prefix_cons c a d b :
  String.prefix (String c a) (String d b) = true -> c = d /\ String.prefix a b = true.
Proof. simpl. destruct (ascii_dec c d); [auto | discriminate]. Qed.

Lemma letter_inj i j : i < ALPHA_SIZE -> j < ALPHA_SIZE -> letter i = letter j -> i = j.
Proof.
  intros Hi Hj E. destruct (letter_islower i Hi) as [_ <-].
  destruct (letter_islower j Hj) as [_ <-]. now rewrite E.
Qed.

Lemma filter_at_most_one {A} (P : A -> Prop) `{forall x, Decision (P x)} (l : list A) :
  (forall i j x y, l !! i = Some x -> l !! j = Some y -> P x -> P y -> i = j) ->
  length (filter P l) <= 1.
Proof.
  induction l as [| a l IH]; intros Huniq; [simpl; lia |].
  destruct (decide (P a)) as [Ha | Ha].
  - rewrite filter_cons_True by exact Ha.
    destruct (filter P l) as [| y r] eqn:E; [simpl; lia |].
    assert (Hy : y ∈ filter P l) by (rewrite E; apply list_elem_of_here).
    apply list_elem_of_filter in Hy as [Py Hy].
    apply list_elem_of_lookup in Hy as [j Hj].
    specialize (Huniq 0 (S j) a y eq_refl Hj Ha Py). discriminate.
  - rewrite filter_cons_False by exact Ha. apply IH.
    intros i j x y Hi Hj Px Py.
    specialize (Huniq (S i) (S j) x y Hi Hj Px Py). lia.
Qed.

(** Below a node whose occupied slots are on the paths of words that are
    pairwise prefixes of one another, no node has two occupied slots. *)
Lemma covered_unbranched n :
  forall W : string -> Prop, allocated n -> covered W n ->
  (forall v w, W v -> W w -> String.prefix v w = true \/ String.prefix w v = true) ->
  unbranched n = true.
Proof.
  induction n as [n IH] using TrieNode_ind_children. intros W Hn Hcov Hch.
  inversion Hcov as [W0 n0 Hex Hrec]; subst.
  rewrite unbranched_eq. apply andb_true_iff. split.
  - apply Nat.leb_le. apply filter_at_most_one.
    intros i j x y Hi Hj Hx Hy.
    destruct (allocated_child n i x Hn Hi Hx) as [_ Hi26].
    destruct (allocated_child n j y Hn Hj Hy) as [_ Hj26].
    destruct (Hex i x Hi Hx) as [a Ha]. destruct (Hex j y Hj Hy) as [b Hb].
    apply (letter_inj i j Hi26 Hj26).
    destruct (Hch _ _ Ha Hb) as [Hp | Hp]; apply prefix_cons in Hp as [E _]; congruence.
  - apply forallb_forall. intros c Hc.
    rewrite Forall_forall in IH.
    pose proof (IH c (proj2 (list_elem_of_In _ _) Hc)) as IHc.
    apply list_elem_of_In, list_elem_of_lookup in Hc as [i Hi].
    destruct (occupied c) eqn:Ho.
    + destruct (allocated_child n i c Hn Hi Ho) as [Hac _].
      apply (IHc _ Hac (Hrec i c Hi Ho)).
      intros v w Hv Hw.
      destruct (Hch _ _ Hv Hw) as [Hp | Hp]; apply prefix_cons in Hp as [_ Hp]; auto.
    + pose proof (Forall_lookup_1 _ _ _ _ (allocated_slots n Hn) Hi) as Hok.
      destruct (slot_ok_cases c Hok) as [-> | [Ho' _]]; [reflexivity | congruence].
Qed.

(** When the inserted words that share their first letter are prefixes of
    one another, no node below the root has two occupied slots. *)
Lemma chain_words_chains ws t :
  chain_words ws -> allocated (Trie.m_root t) ->
  covered (fun w => In w ws) (Trie.m_root t) -> chains t = true.
Proof.
  intros Hch Ht Hcov. unfold chains.
  inversion Hcov as [W0 n0 Hex Hrec]; subst.
  apply forallb_forall. intros c Hc.
  apply list_elem_of_In, list_elem_of_lookup in Hc as [i Hi].
  destruct (occupied c) eqn:Ho.
  - destruct (allocated_child _ i c Ht Hi Ho) as [Hac _].
    apply (covered_unbranched c _ Hac (Hrec i c Hi Ho)).
    intros v w Hv Hw.
    destruct (Hch _ _ (letter i) v w Hv Hw eq_refl eq_refl) as [Hp | Hp];
      apply prefix_cons in Hp as [_ Hp]; auto.
  - pose proof (Forall_lookup_1 _ _ _ _ (allocated_slots _ Ht) Hi) as Hok.
    destruct (slot_ok_cases c Hok) as [-> | [Ho' _]]; [reflexivity | congruence].
Qed.

Lemma valid_intro w : Trie.isLower w = true -> w <> EmptyString -> valid w = true.
Proof. intros Hl Hne. unfold valid. rewrite Hl. now destruct w. Qed.

(** X6: round trip and sorted enumeration for chains.  When the valid words
    inserted into a fresh trie are such that any two of them starting with
    the same letter are prefixes of one another, [getWords] returns a
    strictly increasing list whose elements are exactly the inserted
    words. *)
Theorem getWords_sorted_for_chains ws :
  Forall (fun v => valid v = true) ws -> chain_words ws ->
  exists t out,
    Trie.inserts ws Trie.Trie = (Ok tt, t) /\
    Trie.getWords t = (Ok out, t) /\
    strictly_increasing out = true /\
    (forall w, In w out <-> In w ws).
Proof.
  intros Hws Hch.
  pose proof (Forall_valid_isLower _ Hws) as Lws.
  destruct (inserts_spec ws Trie.Trie Trie_allocated Lws)
    as (t & H & Hal & _ & _ & Hmem).
  destruct (inserts_invariant labelled insert_loop_labelled ws Trie.Trie
              Trie_allocated Trie_labelled Lws) as (t1 & H1 & _ & Hlab).
  destruct (inserts_covered ws ws Trie.Trie (fun w Hw => Hw) Trie_allocated) as (t2 & H2 & Hcov);
    [| exact Lws |].
  { apply covered_no_occupied. simpl. repeat constructor. }
  assert (t1 = t) as -> by congruence. assert (t2 = t) as -> by congruence.
  exists t, (words_from (Trie.m_root t) EmptyString).
  split; [exact H |].
  split; [apply getWords_chains; now apply (chain_words_chains ws) |].
  split; [apply (words_from_sorted _ Hal Hlab) |].
  intros w. split.
  - intros Hw. destruct (words_from_sound _ Hal Hlab w Hw) as (Lw & Nw & Hm).
    specialize (Hm false). rewrite (Hmem w Lw Nw) in Hm.
    destruct (decide (w ∈ ws)) as [Hin | _]; [now apply list_elem_of_In |].
    rewrite (isWord_loop_fresh w Lw) in Hm. discriminate.
  - intros Hin. rewrite Forall_forall in Hws. apply list_elem_of_In in Hin.
    pose proof (Hws w Hin) as Hv.
    pose proof (valid_isLower _ Hv) as Lw. pose proof (valid_nonempty _ Hv) as Nw.
    apply (words_from_complete w _ false Hal Hlab Lw Nw).
    rewrite (Hmem w Lw Nw). now destruct (decide (w ∈ ws)).
Qed.

Lemma getWords_sorted_for_chains_witness :
  Forall (fun v => valid v = true) ["quick"; "many"; "man"; "quickly"] /\
  chain_words ["quick"; "many"; "man"; "quickly"] /\
  exists t out,
    Trie.inserts ["quick"; "many"; "man"; "quickly"] Trie.Trie = (Ok tt, t) /\
    Trie.getWords t = (Ok out, t) /\
    strictly_increasing out = true /\
    (forall w, In w out <-> In w ["quick"; "many"; "man"; "quickly"]).
Proof.
  assert (Hch : chain_words ["quick"; "many"; "man"; "quickly"]).
  { intros v w c v' w' Hv Hw Ev Ew. simpl in Hv, Hw.
    repeat (destruct Hv as [<- | Hv]; [| try contradiction]);
      repeat (destruct Hw as [<- | Hw]; [| try contradiction]);
      first [ left; reflexivity | right; reflexivity | exfalso; congruence ]. }
  split; [repeat constructor |]. split; [exact Hch |].
  apply (getWords_sorted_for_chains ["quick"; "many"; "man"; "quickly"]);
    [repeat constructor | exact Hch].
Defined.
